(** * message.ai-fastify: connection registry and group-scoped broadcast

    A shallow embedding of [src/app.js]: the WebSocket endpoint
    [GET /message] with its [message] and [close] listeners, the AI chat
    route [POST /chat], and the two group routes [POST /groups] and
    [PATCH /groups].

    The two module-level objects [users] and [groups], the set
    [fastify.websocketServer.clients] and the two Firestore collections
    are threaded through a state-and-exception monad.  Everything the
    process cannot decide on its own (the identity provider, the
    completion provider, the outcome of a Firestore call, the clock,
    the uuid generator, whether a socket write raises) sits in an
    environment record [Env].  A handler is run from its first
    statement to its last without another handler interleaving at an
    [await]; [POST /chat], which reads [users] again after its [await],
    is also given in the two parts the [await] cuts it into, so that
    other handlers can run in between. *)

From stdpp Require Import base option list gmap strings fin_maps.
From Stdlib Require Import ZArith NArith Lia.

Open Scope Z_scope.

(** ** JavaScript strings *)

(** Identifiers ([userId], [groupId], group names) are opaque keys that
    are only compared with [===]; they are [string]s.  Text that is
    trimmed (a frame's content, a display name) is a sequence of UTF-16
    code units. *)
Definition text := list N.

Definition text_of_string (s : string) : text :=
  map Ascii.N_of_ascii (String.list_ascii_of_string s).

(** [WhiteSpace] and [LineTerminator] of ECMAScript, the code units
    that [String.prototype.trim] strips. *)
Definition isWhiteSpace (c : N) : bool :=
  ((c =? 0x09) || (c =? 0x0A) || (c =? 0x0B) || (c =? 0x0C) || (c =? 0x0D)
   || (c =? 0x20) || (c =? 0xA0) || (c =? 0x1680)
   || ((0x2000 <=? c) && (c <=? 0x200A))
   || (c =? 0x2028) || (c =? 0x2029) || (c =? 0x202F) || (c =? 0x205F)
   || (c =? 0x3000) || (c =? 0xFEFF))%N.

Fixpoint trimStart (s : text) : text :=
  match s with
  | c :: s' => if isWhiteSpace c then trimStart s' else s
  | [] => []
  end.

Definition trimEnd (s : text) : text := rev (trimStart (rev s)).

Definition trim (s : text) : text := trimEnd (trimStart s).

(** [!x] for a value that is a string or [undefined]: [undefined] and
    the empty string are falsy.  [truthy] returns the string when the
    guard [if (!x)] lets control through. *)
Definition truthy (x : option string) : option string :=
  match x with
  | Some s => if decide (s = "") then None else Some s
  | None => None
  end.

(** [null + " "] is ["null "]: a [null] operand of [+] prints as its name. *)
Definition toStr (x : option text) : text :=
  match x with
  | Some s => s
  | None => text_of_string "null"
  end.

(** ** Data model *)

(** [users[userId] = { name }] *)
Record ConnectedUser := { name : text }.

(** [groups[groupId] = { members }] *)
Record GroupMembership := { members : list string }.

(** A socket of [fastify.websocketServer.clients].  [handle] is the
    identity of the object; [sock_id] and [sock_groupId] are the two
    properties the connection handler writes ([socket.id],
    [socket.groupId]), [None] while they are [undefined]. *)
Record Socket := {
  handle : nat;
  readyState : Z;
  sock_id : option string;
  sock_groupId : option string
}.

(** The object appended to a group's [messages]: the [data] of the
    [message] listener, or the [obj] of [POST /chat], which has the extra
    key [query]. *)
Inductive ChatMessage :=
| UserMessage (userId : string) (name : text) (message : text) (timestamp : Z)
| AiMessage (userId : string) (name : text) (query : option text)
            (message : text) (timestamp : Z)
| AiMessageNoName (userId : string) (query : option text)
                  (message : text) (timestamp : Z).

(** [{ id, name }], an element of a user document's [groups]. *)
Record GroupRef := { ref_id : string; ref_name : string }.

(** A document of the collection ["groups"]. *)
Record GroupDoc := {
  g_id : string;
  g_userId : string;
  g_name : string;
  g_messages : list ChatMessage;
  g_members : list string
}.

(** A document of the collection ["users"]. *)
Record UserDoc := { u_id : string; u_groups : list GroupRef }.

Record Store := {
  s_groups : gmap string GroupDoc;
  s_users : gmap string UserDoc
}.

Global Instance ConnectedUser_eq_dec : EqDecision ConnectedUser.
Proof. solve_decision. Defined.
Global Instance GroupMembership_eq_dec : EqDecision GroupMembership.
Proof. solve_decision. Defined.
Global Instance Socket_eq_dec : EqDecision Socket.
Proof. solve_decision. Defined.
Global Instance ChatMessage_eq_dec : EqDecision ChatMessage.
Proof. solve_decision. Defined.
Global Instance GroupRef_eq_dec : EqDecision GroupRef.
Proof. solve_decision. Defined.

(** The text handed to [client.send]. *)
Inductive Payload := JSON_stringify (m : ChatMessage).

Global Instance Payload_eq_dec : EqDecision Payload.
Proof. solve_decision. Defined.

(** ** Collaborators *)

(** What [clerkClient.users.getUser] resolves to. *)
Record ClerkUser := {
  c_id : string;
  firstName : option text;
  lastName : option text
}.

(** [{ role, content }] of a completion request. *)
Record ChatTurn := { role : string; content : option text }.

(** [completion.choices[i]]: [message] and [content] may be missing. *)
Record Choice := { choice_message : option (option text) }.

Record Completion := { choices : list Choice }.

(** One write queued on a Firestore transaction. *)
Inductive Write :=
| SetUser (userId : string) (d : UserDoc)
| SetGroup (groupId : string) (d : GroupDoc)
| UpdateUserGroups (userId : string) (r : GroupRef)
| UpdateGroupMembers (groupId : string) (userId : string).

Inductive Error :=
| Err (msg : string)
| TypeError
| ClerkError
| FirestoreError
| GroqError (status : option Z)
| SendError.

Global Instance Error_eq_dec : EqDecision Error.
Proof. solve_decision. Defined.

(** Calls that leave the process, in the order they are made. *)
Inductive Event :=
| EvGetUser (userId : string)
| EvGetDoc (collection : string) (docId : string)
| EvUpdateDoc (groupId : string) (m : ChatMessage)
| EvRunTransaction (ws : list Write)
| EvCompletion (transcript : list ChatTurn)
| EvSend (client : nat) (p : Payload)
| EvClose (socket : nat) (code : Z) (reason : string).

(** What the Firestore client makes of an id within a collection:
    [doc(firestore, collection, id)] throws because the path is not
    that of a document (["g1/x"] has one segment too many), or it
    returns a reference whose [getDoc] rejects, or one whose [getDoc]
    resolves to a snapshot. *)
Inductive Reference :=
| Malformed
| Unreadable
| Readable.

(** How [groq.chat.completions.create] settles: with a completion, or
    with an error; [status] is the [status] property of that error, if
    it has one. *)
Inductive Outcome :=
| Resolved (c : Completion)
| Rejected (status : option Z).

Record Env := {
  (** [clerkClient.users.getUser]; [None] when the promise rejects. *)
  getUser : string → option ClerkUser;
  (** [doc] and [getDoc] on an id of a collection *)
  reference : string → string → Reference;
  (** an [updateDoc] that rejects for a reason of the store's own *)
  updateDoc_rejects : string → ChatMessage → bool;
  (** a transaction that does not commit *)
  commit_rejects : list Write → bool;
  (** [groq.chat.completions.create] *)
  create : list ChatTurn → Outcome;
  (** a [client.send] that raises *)
  send_raises : nat → Payload → bool;
  (** [Timestamp.fromDate(new Date())] *)
  now : Z;
  (** [uuidv4()] *)
  uuidv4 : string
}.

(** [doc(firestore, collection, id)] throws. *)
Definition doc_throws (env : Env) (collection id : string) : bool :=
  match reference env collection id with
  | Malformed => true
  | _ => false
  end.

(** No snapshot is to be had: there is no reference, or [getDoc]
    rejects. *)
Definition getDoc_rejects (env : Env) (collection id : string) : bool :=
  match reference env collection id with
  | Readable => false
  | _ => true
  end.

(** ** Process state *)

(** [users] and [groups] are the two module-level objects, used as maps
    from ids to records.  The maps hold their own properties.  An id
    that reaches a listener comes from an accepted connection, so the
    identity provider has resolved it; such an id, and the id of a
    group, is taken not to be a property name of [Object.prototype],
    and a look-up under it finds an own property or nothing.  The
    [userId] of [POST /chat] comes from the request body and is not
    checked with the provider: there the inherited properties count,
    see [users_slot].  A look-up in [groups] ends in the same
    [TypeError] for an inherited property, which has no [members], as
    for a missing one. *)

Record World := {
  users : gmap string ConnectedUser;
  groups : gmap string GroupMembership;
  (** [fastify.websocketServer.clients], in iteration order *)
  clients : list Socket;
  firestore : Store;
  trace : list Event
}.

Definition set_users (f : gmap string ConnectedUser → gmap string ConnectedUser)
    (w : World) : World :=
  {| users := f (users w); groups := groups w; clients := clients w;
     firestore := firestore w; trace := trace w |}.

Definition set_groups (f : gmap string GroupMembership → gmap string GroupMembership)
    (w : World) : World :=
  {| users := users w; groups := f (groups w); clients := clients w;
     firestore := firestore w; trace := trace w |}.

Definition set_clients (f : list Socket → list Socket) (w : World) : World :=
  {| users := users w; groups := groups w; clients := f (clients w);
     firestore := firestore w; trace := trace w |}.

Definition set_firestore (f : Store → Store) (w : World) : World :=
  {| users := users w; groups := groups w; clients := clients w;
     firestore := f (firestore w); trace := trace w |}.

Definition emit (e : Event) (w : World) : World :=
  {| users := users w; groups := groups w; clients := clients w;
     firestore := firestore w; trace := trace w ++ [e] |}.

(** [w] after the calls [evs] were made and nothing else changed. *)
Definition append_trace (evs : list Event) (w : World) : World :=
  {| users := users w; groups := groups w; clients := clients w;
     firestore := firestore w; trace := trace w ++ evs |}.

(** ** [users[userId]] for an id from a request body *)

(** The properties every plain object inherits from [Object.prototype]:
    [None] when [k] names none of them, otherwise the [name] property
    of the inherited value.  The values are functions, whose [name] is
    the property name, but for [constructor], which is [Object], and
    for [__proto__], which is [Object.prototype] itself and has no
    [name]. *)
Definition prototype_name (k : string) : option (option text) :=
  if decide (k = "constructor") then Some (Some (text_of_string "Object"))
  else if decide (k = "__proto__") then Some None
  else if bool_decide
            (k ∈ ["__defineGetter__"; "__defineSetter__"; "hasOwnProperty";
                  "__lookupGetter__"; "__lookupSetter__"; "isPrototypeOf";
                  "propertyIsEnumerable"; "toString"; "valueOf";
                  "toLocaleString"])
  then Some (Some (text_of_string k))
  else None.

(** What [users[k]] evaluates to, as far as the handlers look at it:
    [undefined], or a value, which is truthy, with its [name]. *)
Inductive Slot :=
| Vacant
| Held (name : option text).

Definition users_slot (us : gmap string ConnectedUser) (k : string) : Slot :=
  match us !! k with
  | Some u => Held (Some (name u))
  | None =>
      match prototype_name k with
      | Some n => Held n
      | None => Vacant
      end
  end.

(** The [obj] of [POST /chat]; its [name] is [undefined] when the value
    found under [userId] has none. *)
Definition ai_message (userId : string) (name : option text)
    (query : option text) (message : text) (timestamp : Z) : ChatMessage :=
  match name with
  | Some n => AiMessage userId n query message timestamp
  | None => AiMessageNoName userId query message timestamp
  end.

(** ** The framework's answer to a handler that throws *)

(** The repository installs no error handler.  Fastify's default one
    answers a rejected handler with the status the error carries in
    [statusCode] or [status] when that is 400 or more, and with 500
    otherwise. *)
Definition default_error_code (status : option Z) : Z :=
  match status with
  | Some c => if 400 <=? c then c else 500
  | None => 500
  end.

(** ** The handler monad: state and exceptions *)

Inductive Res (A : Type) :=
| Ok (a : A)
| Throw (e : Error).
Arguments Ok {A} a.
Arguments Throw {A} e.

Definition M (A : Type) : Type := World → Res A * World.

Global Instance M_ret : MRet M := λ A a w, (Ok a, w).

Global Instance M_bind : MBind M := λ A B f m w,
  match m w with
  | (Ok a, w') => f a w'
  | (Throw e, w') => (Throw e, w')
  end.

Definition throw {A} (e : Error) : M A := λ w, (Throw e, w).

Definition get : M World := λ w, (Ok w, w).

Definition modify (f : World → World) : M unit := λ w, (Ok tt, f w).

(** [try { m } catch (err) { h err }]: what [m] did to the state before
    it threw stays done. *)
Definition try_catch {A} (m : M A) (h : Error → M A) : M A := λ w,
  match m w with
  | (Ok a, w') => (Ok a, w')
  | (Throw e, w') => h e w'
  end.

(** [xs.forEach(f)]: the first call that throws ends the iteration. *)
Fixpoint forEach {A} (xs : list A) (f : A → M unit) : M unit :=
  match xs with
  | [] => mret tt
  | x :: xs' => f x ;; forEach xs' f
  end.

(** ** Firestore *)

(** [arrayUnion(x)] applied to a stored array: [x] is added unless an
    equal element is there already. *)
Definition arrayUnion {A} `{EqDecision A} (l : list A) (x : A) : list A :=
  if decide (x ∈ l) then l else l ++ [x].

Definition with_messages (g : GroupDoc) (ms : list ChatMessage) : GroupDoc :=
  {| g_id := g_id g; g_userId := g_userId g; g_name := g_name g;
     g_messages := ms; g_members := g_members g |}.

Definition with_members (g : GroupDoc) (ms : list string) : GroupDoc :=
  {| g_id := g_id g; g_userId := g_userId g; g_name := g_name g;
     g_messages := g_messages g; g_members := ms |}.

Definition put_group (groupId : string) (g : GroupDoc) (s : Store) : Store :=
  {| s_groups := <[groupId := g]> (s_groups s); s_users := s_users s |}.

Definition put_user (userId : string) (u : UserDoc) (s : Store) : Store :=
  {| s_groups := s_groups s; s_users := <[userId := u]> (s_users s) |}.

(** One queued write against the store.  [set] creates or replaces the
    document; [update] needs the document to be there. *)
Definition apply_write (wr : Write) (s : Store) : option Store :=
  match wr with
  | SetUser userId d => Some (put_user userId d s)
  | SetGroup groupId d => Some (put_group groupId d s)
  | UpdateUserGroups userId r =>
      match s_users s !! userId with
      | Some u =>
          Some (put_user userId
                  {| u_id := u_id u; u_groups := arrayUnion (u_groups u) r |} s)
      | None => None
      end
  | UpdateGroupMembers groupId userId =>
      match s_groups s !! groupId with
      | Some g =>
          Some (put_group groupId
                  (with_members g (arrayUnion (g_members g) userId)) s)
      | None => None
      end
  end.

(** The queued writes of a transaction, applied in order; one write
    that cannot be applied fails them all. *)
Fixpoint commit (ws : list Write) (s : Store) : option Store :=
  match ws with
  | [] => Some s
  | wr :: ws' =>
      match apply_write wr s with
      | Some s' => commit ws' s'
      | None => None
      end
  end.

Section Handlers.

Context (env : Env).

(** [await clerkClient.users.getUser(userId)] *)
Definition clerk_getUser (userId : string) : M ClerkUser := λ w,
  let w' := emit (EvGetUser userId) w in
  match getUser env userId with
  | Some u => (Ok u, w')
  | None => (Throw ClerkError, w')
  end.

(** [doc(firestore, collection, id)], for what it can throw; the
    reference itself is the id. *)
Definition doc (collection id : string) : M unit := λ w,
  if doc_throws env collection id then (Throw FirestoreError, w)
  else (Ok tt, w).

(** [await getDoc(doc(firestore, "groups", groupId))]; [None] stands
    for a snapshot whose [exists()] is false.  When [doc] throws, no
    read is made. *)
Definition getDoc_group (groupId : string) : M (option GroupDoc) := λ w,
  let w' := emit (EvGetDoc "groups" groupId) w in
  match reference env "groups" groupId with
  | Malformed => (Throw FirestoreError, w)
  | Unreadable => (Throw FirestoreError, w')
  | Readable => (Ok (s_groups (firestore w) !! groupId), w')
  end.

(** [await updateDoc(groupRef, { messages: arrayUnion(m) })]; the
    promise rejects when the store refuses the write or the document
    does not exist. *)
Definition updateDoc_messages (groupId : string) (m : ChatMessage) : M unit := λ w,
  let w' := emit (EvUpdateDoc groupId m) w in
  if updateDoc_rejects env groupId m then (Throw FirestoreError, w')
  else
    match s_groups (firestore w) !! groupId with
    | Some g =>
        (Ok tt,
         set_firestore
           (put_group groupId (with_messages g (arrayUnion (g_messages g) m))) w')
    | None => (Throw FirestoreError, w')
    end.

(** [await runTransaction(firestore, body)]: [body] reads the store and
    queues writes; they are committed together or not at all. *)
Definition runTransaction (body : Store → list Write) : M unit := λ w,
  let ws := body (firestore w) in
  let w' := emit (EvRunTransaction ws) w in
  if commit_rejects env ws then (Throw FirestoreError, w')
  else
    match commit ws (firestore w) with
    | Some s' => (Ok tt, set_firestore (λ _, s') w')
    | None => (Throw FirestoreError, w')
    end.

(** [groq.chat.completions.create({ ..., messages })]: the request
    leaves the process; how it settles is known when the handler
    resumes. *)
Definition completions_create (messages : list ChatTurn) : M Outcome := λ w,
  (Ok (create env messages), emit (EvCompletion messages) w).

(** The [await] resumes: with the completion, or by throwing the error
    the promise was rejected with. *)
Definition settled (o : Outcome) : M Completion :=
  match o with
  | Resolved c => mret c
  | Rejected status => throw (GroqError status)
  end.

(** ** Sockets *)

(** [client.send(p)] *)
Definition send (client : Socket) (p : Payload) : M unit := λ w,
  if send_raises env (handle client) p then (Throw SendError, w)
  else (Ok tt, emit (EvSend (handle client) p) w).

(** [socket.close(code, reason)] *)
Definition close (socket : nat) (code : Z) (reason : string) : M unit :=
  modify (emit (EvClose socket code reason)).

(** [socket.id = userId] *)
Definition set_sock_id (socket : nat) (userId : string) : M unit :=
  modify (set_clients (map (λ c,
    if decide (handle c = socket)
    then {| handle := handle c; readyState := readyState c;
            sock_id := Some userId; sock_groupId := sock_groupId c |}
    else c))).

(** [socket.groupId = groupId] *)
Definition set_sock_groupId (socket : nat) (groupId : string) : M unit :=
  modify (set_clients (map (λ c,
    if decide (handle c = socket)
    then {| handle := handle c; readyState := readyState c;
            sock_id := sock_id c; sock_groupId := Some groupId |}
    else c))).

(** [xs.includes(x)] where [x] may be [undefined] *)
Definition includes (xs : list string) (x : option string) : bool :=
  match x with
  | Some s => bool_decide (s ∈ xs)
  | None => false
  end.

(** [groups[groupId].members]: reading [members] of [undefined] throws. *)
Definition groups_members (groupId : string) : M (list string) := λ w,
  match groups w !! groupId with
  | Some g => (Ok (members g), w)
  | None => (Throw TypeError, w)
  end.

(** [users[userId].name] *)
Definition users_name (userId : string) : M text := λ w,
  match users w !! userId with
  | Some u => (Ok (name u), w)
  | None => (Throw TypeError, w)
  end.

(** The condition of the [if] in both broadcast loops; [&&] evaluates
    [groups[groupId]] only after the first two tests passed. *)
Definition deliverable (groupId : string) (client : Socket) : M bool :=
  if bool_decide (readyState client = 1) then
    if bool_decide (sock_groupId client = Some groupId) then
      ms ← groups_members groupId; mret (includes ms (sock_id client))
    else mret false
  else mret false.

(** [fastify.websocketServer.clients.forEach((client) => { if (...)
    client.send(p) })], the loop of [socket.on("message")] and of
    [POST /chat]. *)
Definition broadcast (groupId : string) (p : Payload) : M unit :=
  w ← get;
  forEach (clients w) (λ client,
    b ← deliverable groupId client;
    if b : bool then send client p else mret tt).

(** ** [GET /message]: the WebSocket endpoint *)

(** How the connection handler ends when it does not throw: it returned
    from the [catch], or it went on to register the two listeners, which
    close over [userId] and [groupId].  [groupRef] is made before the
    [try]: a [doc] that throws is not caught. *)
Inductive Connection :=
| Refused
| Listening (userId groupId : string).

Definition message_route (socket : nat) (q_userId q_groupId : option string)
    : M Connection :=
  match truthy q_userId with
  | None => throw (Err "User id is required.")
  | Some userId =>
  match truthy q_groupId with
  | None => throw (Err "Group id is required.")
  | Some groupId =>
      doc "groups" groupId ;;
      try_catch
        (user ← clerk_getUser userId;
         let name :=
           trim (toStr (firstName user) ++ text_of_string " "
                 ++ toStr (lastName user)) in
         groupSnap ← getDoc_group groupId;
         match groupSnap with
         | None => throw (Err "Group does not exist.")
         | Some group =>
             let isJoined :=
               existsb (λ id, bool_decide (id = userId)) (g_members group) in
             if negb isJoined then throw (Err "User not joined the group.")
             else
               modify (set_users
                 <[c_id user :=
                     {| name := match name with
                                | [] => text_of_string (c_id user)
                                | _ => name
                                end |}]>) ;;
               modify (set_groups
                 <[groupId := {| members := g_members group |}]>) ;;
               set_sock_id socket userId ;;
               set_sock_groupId socket groupId ;;
               mret (Listening userId groupId)
         end)
        (λ err, close socket 4001 "Error: Unauthorized." ;; mret Refused)
  end
  end.

(** [socket.on("message", async (data) => ...)]; [data] is the frame's
    content, [data.toString()] already taken.  [userId] and [groupId]
    are those of the accepted connection the listener belongs to, and
    [groupRef] is the reference made there. *)
Definition on_message (socket : nat) (userId groupId : string) (data : text)
    : M unit :=
  w ← get;
  match users w !! userId with
  | None => close socket 4001 "Error: Unauthorized."
  | Some _ =>
      let message := trim data in
      match message with
      | [] => mret tt
      | _ =>
          name ← users_name userId;
          let data := UserMessage userId name message (now env) in
          updateDoc_messages groupId data ;;
          broadcast groupId (JSON_stringify data)
      end
  end.

(** [socket.on("close", () => ...)] *)
Definition on_close (userId groupId : string) : M unit :=
  modify (set_users (delete userId)) ;;
  ms ← groups_members groupId;
  modify (set_groups
    <[groupId :=
        {| members := filter (λ id, id ≠ userId) ms |}]>).

(** ** [POST /chat] *)

Record HistoryItem := { h_message : option text }.

Record ChatData := {
  d_messages : option (list HistoryItem);
  d_query : option text
}.

(** [JSON.parse(await req.body)], the three keys the handler reads *)
Record ChatBody := {
  chat_userId : option string;
  chat_groupId : option string;
  chat_data : option ChatData
}.

(** What went back on [res]. *)
Inductive Body :=
| BText (s : string)
| BCreated (userId groupId groupName : string)
| BGroup (d : GroupDoc).

Inductive Reply :=
| Sent (code : Z) (body : Body)
| NotSent.

(** [...xs] in an array literal: [undefined] is not iterable. *)
Definition spread {A} (xs : option (list A)) : M (list A) :=
  match xs with
  | Some l => mret l
  | None => throw TypeError
  end.

(** [completion.choices[0]?.message?.content || ""] *)
Definition first_content (c : Completion) : text :=
  match choices c with
  | ch :: _ =>
      match choice_message ch with
      | Some (Some t) => t
      | _ => []
      end
  | [] => []
  end.

(** [users[userId].name] *)
Definition users_slot_name (userId : string) : M (option text) := λ w,
  match users_slot (users w) userId with
  | Held n => (Ok n, w)
  | Vacant => (Throw TypeError, w)
  end.

(** The locals of [POST /chat] that are alive across its [await], and
    how the awaited call has settled. *)
Record ChatPending := {
  pending_userId : string;
  pending_groupId : string;
  pending_data : ChatData;
  pending_outcome : Outcome
}.

(** [POST /chat] up to its [await]: either the handler has answered, or
    the completion request is on its way. *)
Definition post_chat_request (body : ChatBody) : M (Reply + ChatPending) :=
  match truthy (chat_userId body) with
  | None => mret (inl (Sent 400 (BText "User id is required.")))
  | Some userId =>
  match truthy (chat_groupId body) with
  | None => mret (inl (Sent 400 (BText "Group id is required.")))
  | Some groupId =>
  match chat_data body with
  | None => mret (inl (Sent 400 (BText "Message is required to chat with AI.")))
  | Some data =>
      w ← get;
      match users_slot (users w) userId with
      | Vacant => mret (inl (Sent 401 (BText "Unauthenticated.")))
      | Held _ =>
          let messages :=
            map (λ user, {| role := "user"; content := h_message user |})
              <$> d_messages data in
          history ← spread messages;
          outcome ← completions_create
            ({| role := "system";
                content := Some (text_of_string "You are a support assistant.") |}
             :: history ++ [{| role := "user"; content := d_query data |}]);
          mret (inr {| pending_userId := userId; pending_groupId := groupId;
                       pending_data := data; pending_outcome := outcome |})
      end
  end
  end
  end.

(** [POST /chat] from the moment its [await] resumes, in the state the
    process is in by then. *)
Definition post_chat_resume (p : ChatPending) : M Reply :=
  completion ← settled (pending_outcome p);
  let message := first_content completion in
  name ← users_slot_name (pending_userId p);
  let obj :=
    ai_message (pending_userId p) name (d_query (pending_data p)) message
      (now env) in
  doc "groups" (pending_groupId p) ;;
  updateDoc_messages (pending_groupId p) obj ;;
  broadcast (pending_groupId p) (JSON_stringify obj) ;;
  mret NotSent.

(** [POST /chat] when nothing else runs during its [await]. *)
Definition post_chat (body : ChatBody) : M Reply :=
  p ← post_chat_request body;
  match p with
  | inl reply => mret reply
  | inr pending => post_chat_resume pending
  end.

(** ** [POST /groups] and [PATCH /groups] *)

(** Both handlers make their references once [getUser] has resolved
    [userId].  [doc] on ["users"] and [userId], and on ["groups"] and
    the fresh [uuidv4()], is taken to return a reference: an id the
    identity provider resolves and a uuid are ids of documents.  In
    [PATCH /groups] the reference to the group is part of
    [getDoc_group]. *)

(** The opening of both transaction bodies: [transaction.get(usersRef)],
    then [transaction.set(usersRef, { id, groups: [] })] when the
    document is not there. *)
Definition ensure_user (userId : string) (s : Store) : list Write :=
  match s_users s !! userId with
  | None => [SetUser userId {| u_id := userId; u_groups := [] |}]
  | Some _ => []
  end.

Record CreateBody := {
  create_userId : option string;
  create_groupName : option string
}.

Definition post_groups (body : CreateBody) : M Reply :=
  match truthy (create_userId body) with
  | None => throw (Err "User id is required.")
  | Some userId =>
  match truthy (create_groupName body) with
  | None => throw (Err "Group name is required.")
  | Some groupName =>
      clerk_getUser userId ;;
      let groupId := uuidv4 env in
      runTransaction (λ s,
        ensure_user userId s ++
        [SetGroup groupId
           {| g_id := groupId; g_userId := userId; g_name := groupName;
              g_messages := []; g_members := [userId] |};
         UpdateUserGroups userId
           {| ref_id := groupId; ref_name := groupName |}]) ;;
      mret (Sent 200 (BCreated userId groupId groupName))
  end
  end.

Record JoinBody := {
  join_userId : option string;
  join_groupId : option string
}.

Definition patch_groups (body : JoinBody) : M Reply :=
  match truthy (join_userId body) with
  | None => mret (Sent 400 (BText "User id is required."))
  | Some userId =>
  match truthy (join_groupId body) with
  | None => mret (Sent 400 (BText "Group id is required."))
  | Some groupId =>
      clerk_getUser userId ;;
      groupSnap ← getDoc_group groupId;
      match groupSnap with
      | None => mret (Sent 404 (BText "Group does not exist."))
      | Some data =>
          runTransaction (λ s,
            ensure_user userId s ++
            [UpdateUserGroups userId
               {| ref_id := g_id data; ref_name := g_name data |};
             UpdateGroupMembers groupId userId]) ;;
          mret (Sent 200 (BGroup data))
      end
  end
  end.

End Handlers.

(** ** [GET /messages] and [GET /groups] *)

Section Reads.

Context (env : Env).

(** [await getDoc(doc(firestore, "users", userId))]; [None] stands for
    a snapshot whose [exists()] is false. *)
Definition getDoc_user (userId : string) : M (option UserDoc) := λ w,
  let w' := emit (EvGetDoc "users" userId) w in
  match reference env "users" userId with
  | Malformed => (Throw FirestoreError, w)
  | Unreadable => (Throw FirestoreError, w')
  | Readable => (Ok (s_users (firestore w) !! userId), w')
  end.

(** [GET /messages]: the two query parameters in the order in which the
    handler tests them. *)
Definition get_messages (q_userId q_groupId : option string) : M Reply :=
  match truthy q_userId with
  | None => mret (Sent 400 (BText "User id is required."))
  | Some userId =>
  match truthy q_groupId with
  | None => mret (Sent 400 (BText "Group id is required."))
  | Some groupId =>
      clerk_getUser env userId ;;
      groupSnap ← getDoc_group env groupId;
      match groupSnap with
      | None => mret (Sent 404 (BText "Group does not exist."))
      | Some data =>
          let isJoined :=
            existsb (λ id, bool_decide (id = userId)) (g_members data) in
          if negb isJoined
          then mret (Sent 403 (BText "User not joined the group."))
          else mret (Sent 200 (BGroup data))
      end
  end
  end.

(** [usersSnap.exists() ? usersSnap.data() : []] *)
Inductive Listing :=
| Profile (d : UserDoc)
| EmptyArray.

(** What [GET /groups] sends back. *)
Inductive ListingReply := SentListing (code : Z) (data : Listing).

Definition get_groups (q_userId : option string) : M ListingReply :=
  match truthy q_userId with
  | None => throw (Err "User id is required.")
  | Some userId =>
      clerk_getUser env userId ;;
      usersSnap ← getDoc_user userId;
      let data :=
        match usersSnap with
        | Some d => Profile d
        | None => EmptyArray
        end in
      mret (SentListing 200 data)
  end.

End Reads.

(** ** Runs of the server *)

(** The state when the process has started: both caches are empty and
    no socket is connected. *)
Definition startup (s : Store) : World :=
  {| users := ∅; groups := ∅; clients := []; firestore := s; trace := [] |}.

(** One step of the server: a handler runs to its end, whatever its
    outcome ([POST /chat] also in its two parts, before and after the
    [await], with other steps in between), or something outside the
    handlers moves.  The transport
    adds sockets, which carry no tags yet, drops sockets and changes
    their [readyState], but never writes [id] or [groupId]; other
    writers may change the store. *)
Inductive Step : World → World → Prop :=
| step_connection env socket q_userId q_groupId w r w' :
    message_route env socket q_userId q_groupId w = (r, w') → Step w w'
| step_message env socket userId groupId data w r w' :
    on_message env socket userId groupId data w = (r, w') → Step w w'
| step_close userId groupId w r w' :
    on_close userId groupId w = (r, w') → Step w w'
| step_chat env body w r w' :
    post_chat env body w = (r, w') → Step w w'
| step_chat_request env body w r w' :
    post_chat_request env body w = (r, w') → Step w w'
| step_chat_resume env pending w r w' :
    post_chat_resume env pending w = (r, w') → Step w w'
| step_create env body w r w' :
    post_groups env body w = (r, w') → Step w w'
| step_join env body w r w' :
    patch_groups env body w = (r, w') → Step w w'
| step_history env q_userId q_groupId w r w' :
    get_messages env q_userId q_groupId w = (r, w') → Step w w'
| step_listing env q_userId w r w' :
    get_groups env q_userId w = (r, w') → Step w w'
| step_transport l w :
    (∀ c', c' ∈ l →
       sock_groupId c' = None
       ∨ ∃ c, c ∈ clients w ∧ sock_groupId c = sock_groupId c') →
    Step w (set_clients (λ _, l) w)
| step_store f w : Step w (set_firestore f w).

Inductive reachable : World → Prop :=
| reach_startup s : reachable (startup s)
| reach_step w w' : reachable w → Step w w' → reachable w'.

(** * Specification-side notions *)

(** The delivery predicate as the specification words it: the
    connection is open, tagged with [G], and its user is in
    [groups[G].members]. *)
Definition receives (gs : gmap string GroupMembership) (G : string)
    (c : Socket) : Prop :=
  readyState c = 1 ∧ sock_groupId c = Some G ∧
  ∃ g u, gs !! G = Some g ∧ sock_id c = Some u ∧ u ∈ members g.

Global Instance receives_dec gs G c : Decision (receives gs G c).
Proof.
  unfold receives.
  destruct (gs !! G) as [g|] eqn:Hg; [destruct (sock_id c) as [u|] eqn:Hu|].
  - destruct (decide (readyState c = 1 ∧ sock_groupId c = Some G ∧ u ∈ members g))
      as [(H1 & H2 & H3)|H].
    + left. split; [done|]. split; [done|]. by exists g, u.
    + right. intros (H1 & H2 & g' & u' & Hg' & Hu' & Hin).
      inversion Hg'; inversion Hu'; subst. by apply H.
  - right. by intros (_ & _ & g' & u' & _ & Hu' & _).
  - right. by intros (_ & _ & g' & u' & Hg' & _).
Defined.

(** A code unit that [trim] strips. *)
Definition blank (c : N) : Prop := isWhiteSpace c = true.

(** The events of a broadcast loop over [l] in which no [send] raises:
    one [send] for each client the predicate selects, in iteration
    order. *)
Definition deliveries (p : Payload) (G : string)
    (gs : gmap string GroupMembership) (l : list Socket) : list Event :=
  map (λ c, EvSend (handle c) p) (filter (receives gs G) l).

(** Every tagged client's group has an entry in [groups]: what the
    broadcast loop relies on when it reads [groups[groupId].members]. *)
Definition registry_consistent (w : World) : Prop :=
  ∀ c G, c ∈ clients w → sock_groupId c = Some G → is_Some (groups w !! G).

(** [m] relates the state it starts in to the state it leaves by [R],
    whether it returns or throws. *)
Definition preserves {A} (R : World → World → Prop) (m : M A) : Prop :=
  ∀ w r w', m w = (r, w') → R w w'.

(** The group cache and the clients are the same in both states. *)
Definition same_registry (w w' : World) : Prop :=
  groups w' = groups w ∧ clients w' = clients w.

(** Both caches and the clients are the same in both states. *)
Definition same_caches (w w' : World) : Prop :=
  users w' = users w ∧ groups w' = groups w ∧ clients w' = clients w.

(** The store is the same in both states. *)
Definition same_store (w w' : World) : Prop := firestore w' = firestore w.

(** A text that does not begin with a code unit [trim] strips. *)
Definition clean (s : text) : Prop :=
  match s with
  | c :: _ => isWhiteSpace c = false
  | [] => True
  end.

(** What both the socket endpoint and [GET /messages] ask of a
    request: both ids are given, the identity provider knows the user,
    the group document can be read, exists and lists the user. *)
Definition admitted (env : Env) (w : World) (q_userId q_groupId : option string)
    : Prop :=
  ∃ userId groupId d,
    truthy q_userId = Some userId ∧ truthy q_groupId = Some groupId
    ∧ is_Some (getUser env userId)
    ∧ getDoc_rejects env "groups" groupId = false
    ∧ s_groups (firestore w) !! groupId = Some d
    ∧ userId ∈ g_members d.

(** ** A small deployment

    Alice and Bob are members of group ["g1"]; both are connected, so
    is Carol to ["g2"].  A fourth socket of Bob's is closing and a
    fifth has not been tagged yet. *)

Definition sock (h : nat) (state : Z) (userId groupId : option string) : Socket :=
  {| handle := h; readyState := state; sock_id := userId;
     sock_groupId := groupId |}.

Definition alice_socket : Socket := sock 1 1 (Some "alice") (Some "g1").
Definition bob_socket : Socket := sock 2 1 (Some "bob") (Some "g1").

Definition g1_doc : GroupDoc :=
  {| g_id := "g1"; g_userId := "alice"; g_name := "team";
     g_messages := []; g_members := ["alice"; "bob"] |}.

Definition demo_world : World :=
  {| users := {[ "alice" := {| name := text_of_string "Alice A" |};
                 "bob" := {| name := text_of_string "bob" |} ]};
     groups := {[ "g1" := {| members := ["alice"; "bob"] |};
                  "g2" := {| members := ["carol"] |} ]};
     clients := [alice_socket; bob_socket;
                 sock 3 1 (Some "carol") (Some "g2");
                 sock 4 2 (Some "bob") (Some "g1");
                 sock 5 1 None None];
     firestore := {| s_groups := {[ "g1" := g1_doc ]}; s_users := ∅ |};
     trace := [] |}.

Definition demo_getUser (userId : string) : option ClerkUser :=
  if decide (userId = "alice") then
    Some {| c_id := "alice"; firstName := Some (text_of_string "Alice");
            lastName := Some (text_of_string "A") |}
  else if decide (userId = "dave") then
    Some {| c_id := "dave"; firstName := None; lastName := None |}
  else None.

(** Every collaborator answers. *)
Definition demo_env : Env :=
  {| getUser := demo_getUser;
     reference := λ _ _, Readable;
     updateDoc_rejects := λ _ _, false;
     commit_rejects := λ _, false;
     create := λ _,
       Resolved
         {| choices :=
              [{| choice_message := Some (Some (text_of_string "Hello!")) |}] |};
     send_raises := λ _ _, false;
     now := 1700000000000;
     uuidv4 := "3f2c" |}.

(** As [demo_env], but the store refuses every [updateDoc]. *)
Definition env_append_fails : Env :=
  {| getUser := demo_getUser;
     reference := λ _ _, Readable;
     updateDoc_rejects := λ _ _, true;
     commit_rejects := λ _, false;
     create := create demo_env;
     send_raises := λ _ _, false;
     now := 1700000000000;
     uuidv4 := "3f2c" |}.

(** As [demo_env], but a write to Alice's socket raises. *)
Definition env_send_raises : Env :=
  {| getUser := demo_getUser;
     reference := λ _ _, Readable;
     updateDoc_rejects := λ _ _, false;
     commit_rejects := λ _, false;
     create := create demo_env;
     send_raises := λ h _, bool_decide (h = 1%nat);
     now := 1700000000000;
     uuidv4 := "3f2c" |}.

(** As [demo_env], but the completion provider rejects. *)
Definition env_ai_fails : Env :=
  {| getUser := demo_getUser;
     reference := λ _ _, Readable;
     updateDoc_rejects := λ _ _, false;
     commit_rejects := λ _, false;
     create := λ _, Rejected None;
     send_raises := λ _ _, false;
     now := 1700000000000;
     uuidv4 := "3f2c" |}.

(** As [demo_env], but the completion provider rejects with an error
    whose [status] is 429. *)
Definition env_ai_throttled : Env :=
  {| getUser := demo_getUser;
     reference := λ _ _, Readable;
     updateDoc_rejects := λ _ _, false;
     commit_rejects := λ _, false;
     create := λ _, Rejected (Some 429);
     send_raises := λ _ _, false;
     now := 1700000000000;
     uuidv4 := "3f2c" |}.

(** As [demo_env], but ["g1/x"] is not the id of a document. *)
Definition env_malformed : Env :=
  {| getUser := demo_getUser;
     reference := λ _ id, if decide (id = "g1/x") then Malformed else Readable;
     updateDoc_rejects := λ _ _, false;
     commit_rejects := λ _, false;
     create := create demo_env;
     send_raises := λ _ _, false;
     now := 1700000000000;
     uuidv4 := "3f2c" |}.

Definition hello : ChatMessage :=
  UserMessage "alice" (text_of_string "Alice A") (text_of_string "hello")
    1700000000000.

(** Membership in a list that is written out. *)
Ltac listed :=
  simpl; repeat first [apply list_elem_of_here | apply list_elem_of_further].

Ltac run :=
  unfold mbind, M_bind, mret, M_ret, throw, get, modify, try_catch in *;
  simpl in *.

(** * Properties *)

(** ** The trace *)

Lemma append_trace_nil w : append_trace [] w = w.
Proof. destruct w. unfold append_trace. simpl. by rewrite app_nil_r. Qed.

Lemma append_trace_app a b w :
  append_trace b (append_trace a w) = append_trace (a ++ b) w.
Proof. unfold append_trace. simpl. by rewrite app_assoc. Qed.

Lemma emit_append_trace e w : emit e w = append_trace [e] w.
Proof. reflexivity. Qed.

(** ** References *)

Lemma readable env collection id :
  getDoc_rejects env collection id = false →
  reference env collection id = Readable.
Proof. unfold getDoc_rejects. by destruct (reference env collection id). Qed.

Lemma readable_doc env collection id :
  getDoc_rejects env collection id = false →
  doc_throws env collection id = false.
Proof.
  unfold getDoc_rejects, doc_throws. by destruct (reference env collection id).
Qed.

(** ** Trimming *)

Lemma trimStart_blank s : Forall blank s → trimStart s = [].
Proof.
  induction 1 as [|c s Hc _ IH]; simpl; [done|]. by rewrite Hc.
Qed.

Lemma trimStart_nil_inv s : trimStart s = [] → Forall blank s.
Proof.
  induction s as [|c s IH]; simpl; [constructor|].
  destruct (isWhiteSpace c) eqn:Hc; [|done].
  intros H. constructor; [done | by apply IH].
Qed.

Lemma trimStart_suffix s : ∃ p, s = p ++ trimStart s ∧ Forall blank p.
Proof.
  induction s as [|c s (p & Hs & Hp)]; simpl.
  - by exists [].
  - destruct (isWhiteSpace c) eqn:Hc.
    + exists (c :: p). split; [simpl; congruence | by constructor].
    + by exists [].
Qed.

Lemma trim_blank s : Forall blank s → trim s = [].
Proof.
  intros H. unfold trim, trimEnd. by rewrite (trimStart_blank s H).
Qed.

Lemma trim_nil_inv s : trim s = [] → Forall blank s.
Proof.
  unfold trim, trimEnd. intros H.
  destruct (trimStart_suffix s) as (p & Hs & Hp).
  assert (Hr : trimStart (rev (trimStart s)) = []).
  { apply (f_equal (@rev N)) in H. by rewrite rev_involutive in H. }
  apply trimStart_nil_inv in Hr.
  rewrite Hs. apply Forall_app. split; [done|].
  apply Forall_forall. intros x Hx.
  rewrite Forall_forall in Hr. apply Hr.
  apply list_elem_of_In. apply -> in_rev. by apply list_elem_of_In.
Qed.

(** ** The broadcast loop *)

Section Broadcast.

Context (env : Env) (G : string) (p : Payload).

(** The test of the loop agrees with the delivery predicate whenever
    reading [groups[G].members] does not throw. *)
Lemma deliverable_receives (c : Socket) (w : World) :
  (readyState c = 1 → sock_groupId c = Some G → is_Some (groups w !! G)) →
  deliverable G c w = (Ok (bool_decide (receives (groups w) G c)), w).
Proof.
  intros Hg. unfold deliverable, groups_members. run.
  destruct (decide (readyState c = 1)) as [Hr|Hr].
  2:{ rewrite (bool_decide_eq_false_2 _ Hr).
      symmetry. f_equal. f_equal. apply bool_decide_eq_false_2.
      by intros (H1 & _). }
  rewrite (bool_decide_eq_true_2 _ Hr).
  destruct (decide (sock_groupId c = Some G)) as [Ht|Ht].
  2:{ rewrite (bool_decide_eq_false_2 _ Ht).
      symmetry. f_equal. f_equal. apply bool_decide_eq_false_2.
      by intros (_ & H2 & _). }
  rewrite (bool_decide_eq_true_2 _ Ht).
  destruct (Hg Hr Ht) as [g Hgs]. rewrite Hgs.
  f_equal. f_equal. unfold includes.
  destruct (sock_id c) as [u|] eqn:Hu.
  - apply bool_decide_ext. split.
    + intros Hin. split; [done|]. split; [done|]. by exists g, u.
    + intros (_ & _ & g' & u' & Hg' & Hu' & Hin). congruence.
  - symmetry. apply bool_decide_eq_false_2.
    intros (_ & _ & g' & u' & _ & Hu' & _). congruence.
Qed.

(** Whatever else happens, the test lets only eligible clients through. *)
Lemma deliverable_true (c : Socket) (w w' : World) :
  deliverable G c w = (Ok true, w') → receives (groups w) G c ∧ w' = w.
Proof.
  unfold deliverable, groups_members, receives, includes. run.
  case_bool_decide as Hr; [|by inversion 1].
  case_bool_decide as Ht; [|by inversion 1].
  destruct (groups w !! G) as [g|] eqn:Hg; [|by inversion 1].
  destruct (sock_id c) as [u|] eqn:Hu; [|by inversion 1].
  intros H. inversion H as [[Hb Hw]]. apply bool_decide_eq_true_1 in Hb.
  split; [|done]. split; [done|]. split; [done|]. by exists g, u.
Qed.

Lemma forEach_deliveries (l : list Socket) : ∀ w : World,
  (∀ c, c ∈ l → readyState c = 1 → sock_groupId c = Some G →
        is_Some (groups w !! G)) →
  (∀ c, c ∈ l → receives (groups w) G c →
        send_raises env (handle c) p = false) →
  forEach l (λ client,
      b ← deliverable G client;
      if b : bool then send env client p else mret tt) w
  = (Ok tt, append_trace (deliveries p G (groups w) l) w).
Proof.
  induction l as [|c l IH]; intros w Hg Hs.
  - simpl. run. by rewrite append_trace_nil.
  - simpl. run.
    rewrite deliverable_receives by (apply Hg; left).
    unfold deliveries. rewrite filter_cons.
    destruct (decide (receives (groups w) G c)) as [Hc|Hc].
    + rewrite (bool_decide_eq_true_2 _ Hc). unfold send.
      rewrite (Hs c) by (done || left). simpl.
      rewrite emit_append_trace.
      rewrite IH; simpl.
      * by rewrite append_trace_app.
      * intros c' Hc'. apply Hg. by right.
      * intros c' Hc'. apply Hs. by right.
    + rewrite (bool_decide_eq_false_2 _ Hc). simpl.
      apply IH.
      * intros c' Hc'. apply Hg. by right.
      * intros c' Hc'. apply Hs. by right.
Qed.

(** A [send] that raises ends the loop where it is. *)
Lemma forEach_raises (l1 l2 : list Socket) (c : Socket) (w : World) :
  is_Some (groups w !! G) →
  (∀ c', c' ∈ l1 → receives (groups w) G c' →
         send_raises env (handle c') p = false) →
  receives (groups w) G c →
  send_raises env (handle c) p = true →
  forEach (l1 ++ c :: l2) (λ client,
      b ← deliverable G client;
      if b : bool then send env client p else mret tt) w
  = (Throw SendError, append_trace (deliveries p G (groups w) l1) w).
Proof.
  intros Hg. revert w Hg.
  induction l1 as [|c1 l1 IH]; intros w Hg Hs Hc Hr.
  - simpl. run. rewrite deliverable_receives by done.
    rewrite (bool_decide_eq_true_2 _ Hc). unfold send. rewrite Hr.
    by rewrite append_trace_nil.
  - simpl. run. rewrite deliverable_receives by done.
    unfold deliveries. rewrite filter_cons.
    destruct (decide (receives (groups w) G c1)) as [Hc1|Hc1].
    + rewrite (bool_decide_eq_true_2 _ Hc1). unfold send.
      rewrite (Hs c1) by (done || left). simpl.
      rewrite emit_append_trace, IH; simpl; try done.
      * by rewrite append_trace_app.
      * intros c' Hc'. apply Hs. by right.
    + rewrite (bool_decide_eq_false_2 _ Hc1). simpl.
      apply IH; try done. intros c' Hc'. apply Hs. by right.
Qed.

End Broadcast.

(** ** Any outcome of the loop *)

Lemma deliverable_state G c w r w' : deliverable G c w = (r, w') → w' = w.
Proof.
  unfold deliverable, groups_members. run.
  repeat case_bool_decide; try (by inversion 1).
  destruct (groups w !! G); by inversion 1.
Qed.

Lemma deliverable_false G c w w' :
  deliverable G c w = (Ok false, w') → ¬ receives (groups w) G c.
Proof.
  unfold deliverable, groups_members, includes. run.
  intros H (Hr & Ht & g & u & Hg & Hu & Hin). revert H.
  rewrite (bool_decide_eq_true_2 _ Hr), (bool_decide_eq_true_2 _ Ht), Hg, Hu.
  by rewrite (bool_decide_eq_true_2 _ Hin).
Qed.

Lemma deliveries_cons_True p G gs c l :
  receives gs G c →
  deliveries p G gs (c :: l) = EvSend (handle c) p :: deliveries p G gs l.
Proof. intros Hc. unfold deliveries. by rewrite filter_cons_True. Qed.

Lemma deliveries_cons_False p G gs c l :
  ¬ receives gs G c → deliveries p G gs (c :: l) = deliveries p G gs l.
Proof. intros Hc. unfold deliveries. by rewrite filter_cons_False. Qed.

Lemma forEach_prefix env G p (l : list Socket) : ∀ w r w',
  forEach l (λ client,
      b ← deliverable G client;
      if b : bool then send env client p else mret tt) w = (r, w') →
  ∃ evs, w' = append_trace evs w
         ∧ evs `prefix_of` deliveries p G (groups w) l
         ∧ (r = Ok tt → evs = deliveries p G (groups w) l).
Proof.
  induction l as [|c l IH]; intros w r w'; simpl; run.
  - intros H. inversion H; subst. exists []. rewrite append_trace_nil.
    split; [done|]. split; [apply prefix_nil | done].
  - destruct (deliverable G c w) as [[b|e] w1] eqn:Hd.
    2:{ intros H. inversion H; subst. apply deliverable_state in Hd. subst w'.
        exists []. rewrite append_trace_nil.
        split; [done|]. split; [apply prefix_nil | done]. }
    pose proof (deliverable_state _ _ _ _ _ Hd). subst w1.
    destruct b.
    + apply deliverable_true in Hd as [Hc _].
      rewrite (deliveries_cons_True _ _ _ _ _ Hc). unfold send.
      destruct (send_raises env (handle c) p).
      * intros H. inversion H; subst. exists []. rewrite append_trace_nil.
        split; [done|]. split; [apply prefix_nil | done].
      * simpl. intros H. apply IH in H as (evs & -> & Hpre & Hok).
        simpl in *. exists (EvSend (handle c) p :: evs).
        rewrite emit_append_trace, append_trace_app.
        split; [done|]. split; [by apply prefix_cons|].
        intros Hr. by rewrite Hok.
    + apply deliverable_false in Hd.
      rewrite (deliveries_cons_False _ _ _ _ _ Hd). simpl. apply IH.
Qed.

(** ** Broadcast scoping *)

Lemma elem_of_deliveries p G gs l e :
  e ∈ deliveries p G gs l ↔
  ∃ c, c ∈ l ∧ receives gs G c ∧ e = EvSend (handle c) p.
Proof.
  unfold deliveries. rewrite list_elem_of_fmap. split.
  - intros (c & -> & Hc). apply list_elem_of_filter in Hc as [Hr Hc].
    by exists c.
  - intros (c & Hc & Hr & ->). exists c. split; [done|].
    by apply list_elem_of_filter.
Qed.

Lemma receives_intro gs G c g u :
  readyState c = 1 → sock_groupId c = Some G → gs !! G = Some g →
  sock_id c = Some u → u ∈ members g → receives gs G c.
Proof. intros. split; [done|]. split; [done|]. by exists g, u. Qed.

Lemma demo_alice_receives : receives (groups demo_world) "g1" alice_socket.
Proof.
  apply (receives_intro _ _ _ {| members := ["alice"; "bob"] |} "alice");
    [done | done | by vm_compute | done | listed].
Qed.

Lemma demo_bob_receives : receives (groups demo_world) "g1" bob_socket.
Proof.
  apply (receives_intro _ _ _ {| members := ["alice"; "bob"] |} "bob");
    [done | done | by vm_compute | done | listed].
Qed.

(** C1, as the specification states it, fails: in the demo deployment
    Bob's socket is open, tagged with ["g1"] and Bob is in
    [groups["g1"].members], yet a broadcast for ["g1"] during which the
    write to Alice's socket raises sends nothing at all. *)
Lemma raising_send_leaves_eligible_unserved :
  bob_socket ∈ clients demo_world
  ∧ receives (groups demo_world) "g1" bob_socket
  ∧ trace (broadcast env_send_raises "g1" (JSON_stringify hello) demo_world).2
    = [].
Proof.
  split; [unfold demo_world; listed|].
  split; [apply demo_bob_receives|].
  vm_compute. reflexivity.
Qed.

Lemma deliveries_no_entry p G gs l :
  gs !! G = None → deliveries p G gs l = [].
Proof.
  intros Hg. unfold deliveries.
  induction l as [|c l IH]; [done|].
  rewrite filter_cons_False; [done|].
  intros (_ & _ & g & u & Hg' & _). congruence.
Qed.

(** C1, amended.  A broadcast for group [G] in which no write to an
    eligible client raises performs one [send] of the payload for each
    client that is open, tagged with [G] and whose user is in
    [groups[G].members], in iteration order, and nothing else: a
    client tagged with another group, outside the member list or not
    open gets no [send].  The loop returns normally when every open
    client tagged with [G] finds [groups[G]], which the connection
    handler sees to. *)
Theorem broadcast_reaches_exactly_the_group (env : Env) (G : string)
    (p : Payload) (w : World) :
  (∀ c, c ∈ clients w → receives (groups w) G c →
        send_raises env (handle c) p = false) →
  ∃ r,
    broadcast env G p w
    = (r, append_trace (deliveries p G (groups w) (clients w)) w)
    ∧ ((∀ c, c ∈ clients w → readyState c = 1 → sock_groupId c = Some G →
             is_Some (groups w !! G)) → r = Ok tt)
    ∧ ∀ e, e ∈ deliveries p G (groups w) (clients w) ↔
           ∃ c, c ∈ clients w ∧ receives (groups w) G c
                ∧ e = EvSend (handle c) p.
Proof.
  intros Hs.
  assert (Hok : (∀ c, c ∈ clients w → readyState c = 1 →
                      sock_groupId c = Some G → is_Some (groups w !! G)) →
                broadcast env G p w
                = (Ok tt, append_trace (deliveries p G (groups w) (clients w)) w)).
  { intros Hg. unfold broadcast. run. by apply forEach_deliveries. }
  destruct (groups w !! G) as [g|] eqn:Hg.
  - exists (Ok tt). split; [|split; [done | apply elem_of_deliveries]].
    apply Hok. intros c _ _ _. eauto.
  - destruct (broadcast env G p w) as [r w'] eqn:Hb. exists r.
    split; [|split; [|apply elem_of_deliveries]].
    + unfold broadcast in Hb. run.
      apply forEach_prefix in Hb as (evs & -> & Hpre & _).
      rewrite (deliveries_no_entry p G (groups w) (clients w) Hg) in *.
      by apply prefix_nil_inv in Hpre as ->.
    + intros Hall. specialize (Hok Hall). congruence.
Qed.

Lemma broadcast_reaches_exactly_the_group_demo :
  ∃ r,
    broadcast demo_env "g1" (JSON_stringify hello) demo_world
    = (r, append_trace
            (deliveries (JSON_stringify hello) "g1" (groups demo_world)
               (clients demo_world)) demo_world)
    ∧ ((∀ c, c ∈ clients demo_world → readyState c = 1 →
             sock_groupId c = Some "g1" →
             is_Some (groups demo_world !! "g1")) → r = Ok tt)
    ∧ ∀ e, e ∈ deliveries (JSON_stringify hello) "g1" (groups demo_world)
                 (clients demo_world) ↔
           ∃ c, c ∈ clients demo_world ∧ receives (groups demo_world) "g1" c
                ∧ e = EvSend (handle c) (JSON_stringify hello).
Proof.
  apply (broadcast_reaches_exactly_the_group demo_env "g1"
           (JSON_stringify hello) demo_world).
  intros c _ _. reflexivity.
Defined.

(** ** A write that raises *)

(** C3, as the specification states it, fails: in the demo deployment a
    write to Alice's socket that raises leaves Bob's socket, which
    matches and whose own write would succeed, without the payload. *)
Lemma raising_send_starves_later_clients :
  clients demo_world
    = alice_socket :: bob_socket :: drop 2 (clients demo_world)
  ∧ receives (groups demo_world) "g1" alice_socket
  ∧ send_raises env_send_raises (handle alice_socket) (JSON_stringify hello) = true
  ∧ receives (groups demo_world) "g1" bob_socket
  ∧ send_raises env_send_raises (handle bob_socket) (JSON_stringify hello) = false
  ∧ broadcast env_send_raises "g1" (JSON_stringify hello) demo_world
    = (Throw SendError, demo_world).
Proof.
  split; [reflexivity|].
  split; [apply demo_alice_receives|].
  split; [reflexivity|].
  split; [apply demo_bob_receives|].
  split; [reflexivity|].
  vm_compute. reflexivity.
Qed.

(** C3, amended.  The loop has no handler around [client.send]: when
    the write to a matching client raises, the clients before it in
    iteration order have been served, and the exception leaves the
    loop, so no client after it is written to. *)
Theorem broadcast_stops_at_raising_send (env : Env) (G : string)
    (p : Payload) (w : World) (l1 l2 : list Socket) (c : Socket) :
  clients w = l1 ++ c :: l2 →
  is_Some (groups w !! G) →
  (∀ c', c' ∈ l1 → receives (groups w) G c' →
         send_raises env (handle c') p = false) →
  receives (groups w) G c →
  send_raises env (handle c) p = true →
  broadcast env G p w
    = (Throw SendError, append_trace (deliveries p G (groups w) l1) w).
Proof.
  intros Hl Hg Hs Hc Hr. unfold broadcast. run. rewrite Hl.
  by apply forEach_raises.
Qed.

Lemma broadcast_stops_at_raising_send_demo :
  broadcast env_send_raises "g1" (JSON_stringify hello)
    (set_clients (λ _, [bob_socket; alice_socket; sock 6 1 (Some "bob") (Some "g1")])
       demo_world)
  = (Throw SendError,
     append_trace [EvSend 2 (JSON_stringify hello)]
       (set_clients (λ _, [bob_socket; alice_socket; sock 6 1 (Some "bob") (Some "g1")])
          demo_world)).
Proof.
  refine (eq_trans
    (broadcast_stops_at_raising_send env_send_raises "g1"
       (JSON_stringify hello) _ [bob_socket] [sock 6 1 (Some "bob") (Some "g1")]
       alice_socket _ _ _ _ _) _).
  - reflexivity.
  - vm_compute. eauto.
  - intros c' Hc' _. apply list_elem_of_singleton in Hc'. by subst c'.
  - apply demo_alice_receives.
  - reflexivity.
  - vm_compute. reflexivity.
Defined.

(** ** The [message] listener *)

(** C2, as the specification states it, fails: Alice is connected and
    sends ["hello"], the store refuses the append, and the listener
    ends with the store's error after the [updateDoc] call; no client
    is written to although Alice's own socket matches. *)
Lemma failed_append_reaches_nobody :
  is_Some (users demo_world !! "alice")
  ∧ trim (text_of_string "hello") = text_of_string "hello"
  ∧ alice_socket ∈ clients demo_world
  ∧ receives (groups demo_world) "g1" alice_socket
  ∧ on_message env_append_fails 1 "alice" "g1" (text_of_string "hello") demo_world
    = (Throw FirestoreError, append_trace [EvUpdateDoc "g1" hello] demo_world).
Proof.
  split; [vm_compute; eauto|].
  split; [by vm_compute|].
  split; [unfold demo_world; listed|].
  split; [apply demo_alice_receives|].
  vm_compute. reflexivity.
Qed.

(** C2, amended.  [await updateDoc] stands before the loop with no
    handler around it: for a non-empty frame from a connected user, an
    append that fails (the store rejects it, or the group document is
    gone) ends the listener with the store's error.  Nothing is written
    to any client, and neither the caches nor the store change. *)
Theorem failed_append_ends_the_listener (env : Env) (socket : nat)
    (userId groupId : string) (data : text) (w : World) (u : ConnectedUser) :
  users w !! userId = Some u →
  trim data ≠ [] →
  updateDoc_rejects env groupId
    (UserMessage userId (name u) (trim data) (now env)) = true
  ∨ s_groups (firestore w) !! groupId = None →
  on_message env socket userId groupId data w
  = (Throw FirestoreError,
     append_trace
       [EvUpdateDoc groupId (UserMessage userId (name u) (trim data) (now env))]
       w).
Proof.
  intros Hu Ht Hfail. unfold on_message, users_name, updateDoc_messages. run.
  rewrite Hu. destruct (trim data) as [|c s] eqn:Hd; [done|].
  rewrite Hu. simpl.
  destruct Hfail as [Hrej|Hnone].
  - by rewrite Hrej.
  - rewrite Hnone. by destruct (updateDoc_rejects _ _ _).
Qed.

Lemma failed_append_ends_the_listener_demo :
  on_message env_append_fails 1 "alice" "g1" (text_of_string " hello ") demo_world
  = (Throw FirestoreError, append_trace [EvUpdateDoc "g1" hello] demo_world).
Proof.
  refine (eq_trans
    (failed_append_ends_the_listener env_append_fails 1 "alice" "g1"
       (text_of_string " hello ") demo_world
       {| name := text_of_string "Alice A" |} _ _ _) _).
  - by vm_compute.
  - by vm_compute.
  - left. reflexivity.
  - vm_compute. reflexivity.
Defined.

(** C5. A frame that is empty or all white space causes no [updateDoc]
    and no [send] and the listener returns normally: for a connected
    user it changes nothing at all; for a socket whose user is no
    longer in [users] the only effect is the [close(4001)] that the
    listener's first line performs for any frame. *)
Theorem blank_frame_is_dropped (env : Env) (socket : nat)
    (userId groupId : string) (data : text) (w : World) :
  Forall blank data →
  (is_Some (users w !! userId) ∧
   on_message env socket userId groupId data w = (Ok tt, w))
  ∨ (users w !! userId = None ∧
     on_message env socket userId groupId data w
     = (Ok tt, append_trace [EvClose socket 4001 "Error: Unauthorized."] w)).
Proof.
  intros Hb. apply trim_blank in Hb. unfold on_message, close. run.
  destruct (users w !! userId) as [u|] eqn:Hu.
  - left. rewrite Hb. eauto.
  - right. done.
Qed.

Lemma blank_frame_is_dropped_demo :
  on_message demo_env 1 "alice" "g1" [0x20; 0x09; 0x0A; 0x3000]%N demo_world
  = (Ok tt, demo_world).
Proof.
  destruct (blank_frame_is_dropped demo_env 1 "alice" "g1"
              [0x20; 0x09; 0x0A; 0x3000]%N demo_world) as [[_ H]|[H _]].
  - repeat constructor.
  - exact H.
  - by vm_compute in H.
Defined.

(** ** The connection handler *)

Lemma some_strict_eq (l : list string) (x : string) :
  existsb (λ id, bool_decide (id = x)) l = bool_decide (x ∈ l).
Proof.
  induction l as [|y l IH].
  - done.
  - simpl. rewrite IH. destruct (decide (y = x)) as [->|Hne].
    + rewrite (bool_decide_eq_true_2 (x = x)) by done. simpl.
      symmetry. apply bool_decide_eq_true_2. apply list_elem_of_here.
    + rewrite (bool_decide_eq_false_2 (y = x)) by done. simpl.
      apply bool_decide_ext. rewrite elem_of_cons.
      split; [by right | by intros [->|?]].
Qed.

(** C8. When [userId] or [groupId] is missing from the query, the
    connection handler throws its "... is required." error on the spot:
    the state it leaves is the state it found, trace included, so
    neither [getUser] nor [getDoc] was called and no cache was written. *)
Theorem missing_id_fails_first (env : Env) (socket : nat)
    (q_userId q_groupId : option string) (w : World) :
  q_userId = None ∨ q_groupId = None →
  ∃ msg, message_route env socket q_userId q_groupId w = (Throw (Err msg), w)
         ∧ (msg = "User id is required." ∨ msg = "Group id is required.").
Proof.
  intros Habsent. unfold message_route.
  destruct (truthy q_userId) as [userId|] eqn:Hu.
  - destruct Habsent as [->| ->]; [done|]. simpl.
    exists "Group id is required.". split; [done | by right].
  - exists "User id is required.". split; [done | by left].
Qed.

Lemma missing_id_fails_first_demo :
  ∃ msg, message_route demo_env 5 (Some "alice") None demo_world
         = (Throw (Err msg), demo_world)
         ∧ (msg = "User id is required." ∨ msg = "Group id is required.").
Proof.
  apply (missing_id_fails_first demo_env 5 (Some "alice") None demo_world).
  by right.
Defined.

(** C4, as the specification states it, fails: no group has the id
    ["g1/x"], which is not the id of a document, and a connection
    attempt for it ends in the error [doc] throws before the [try]:
    the socket is not closed with 4001.  No state is retained. *)
Lemma malformed_group_id_is_not_closed :
  truthy (Some "alice") = Some "alice"
  ∧ truthy (Some "g1/x") = Some "g1/x"
  ∧ s_groups (firestore demo_world) !! "g1/x" = None
  ∧ message_route env_malformed 5 (Some "alice") (Some "g1/x") demo_world
    = (Throw FirestoreError, demo_world).
Proof.
  split; [reflexivity|]. split; [reflexivity|]. split; [by vm_compute|].
  vm_compute. reflexivity.
Qed.

(** C4, amended.  For a connection attempt whose [groupId] is the id
    of a document, so that [doc] returns a reference, authentication
    fails when the identity provider does not resolve the user, the
    group document cannot be read or does not exist, or the user is
    not among its [members].  In each case the handler returns from
    its [catch] after [socket.close(4001, ...)]: [users], [groups], the
    sockets' tags and the store are as before, and the trace has grown
    by the look-ups made and the close. *)
Theorem refused_connection_leaves_no_state (env : Env) (socket : nat)
    (q_userId q_groupId : option string) (userId groupId : string)
    (w : World) :
  truthy q_userId = Some userId →
  truthy q_groupId = Some groupId →
  doc_throws env "groups" groupId = false →
  getUser env userId = None
  ∨ getDoc_rejects env "groups" groupId = true
  ∨ s_groups (firestore w) !! groupId = None
  ∨ (∃ g, s_groups (firestore w) !! groupId = Some g ∧ userId ∉ g_members g) →
  ∃ lookups,
    message_route env socket q_userId q_groupId w
    = (Ok Refused,
       append_trace (lookups ++ [EvClose socket 4001 "Error: Unauthorized."]) w)
    ∧ (lookups = [EvGetUser userId]
       ∨ lookups = [EvGetUser userId; EvGetDoc "groups" groupId]).
Proof.
  intros Hu Hg Hdoc Hfail. unfold message_route. rewrite Hu, Hg.
  unfold doc, clerk_getUser, getDoc_group, close. run. rewrite Hdoc.
  destruct (getUser env userId) as [user|] eqn:Huser.
  2:{ exists [EvGetUser userId]. split; [|by left].
      by rewrite !emit_append_trace, append_trace_app. }
  exists [EvGetUser userId; EvGetDoc "groups" groupId]. split; [|by right].
  unfold doc_throws, getDoc_rejects in *.
  destruct (reference env "groups" groupId) eqn:Href; simpl; [done| |].
  { rewrite !emit_append_trace, !append_trace_app. reflexivity. }
  destruct (s_groups (firestore w) !! groupId) as [group|] eqn:Hgroup.
  2:{ simpl. rewrite !emit_append_trace, !append_trace_app. reflexivity. }
  destruct Hfail as [?|[?|[?|(g & Hsome & Hnot)]]]; try done.
  inversion Hsome; subst g.
  rewrite some_strict_eq, (bool_decide_eq_false_2 _ Hnot). simpl.
  rewrite !emit_append_trace, !append_trace_app. reflexivity.
Qed.

Lemma refused_connection_leaves_no_state_demo :
  message_route demo_env 5 (Some "dave") (Some "g1") demo_world
  = (Ok Refused,
     append_trace [EvGetUser "dave"; EvGetDoc "groups" "g1";
                   EvClose 5 4001 "Error: Unauthorized."] demo_world).
Proof.
  destruct (refused_connection_leaves_no_state demo_env 5
              (Some "dave") (Some "g1") "dave" "g1" demo_world)
    as (lookups & H & [-> | ->]).
  - reflexivity.
  - reflexivity.
  - reflexivity.
  - right. right. right. exists g1_doc. split; [by vm_compute|].
    simpl. intros Hin. apply elem_of_cons in Hin as [Hin|Hin]; [done|].
    by apply list_elem_of_singleton in Hin.
  - by vm_compute in H.
  - exact H.
Defined.

(** ** The [close] listener *)

Lemma filter_twice (P : string → Prop) `{∀ x, Decision (P x)} (l : list string) :
  filter P (filter P l) = filter P l.
Proof.
  induction l as [|x l IH]; [done|].
  rewrite filter_cons. destruct (decide (P x)) as [Hx|Hx]; [|done].
  rewrite filter_cons. destruct (decide (P x)); [|done]. by rewrite IH.
Qed.

(** C7. Running the [close] listener a second time, on the state the
    first run left, ends as the first run did and leaves that very
    state.  Once a connection was accepted for [groupId], so that
    [groups[groupId]] exists, which is when the listener is registered,
    both runs return normally. *)
Theorem on_close_idempotent (userId groupId : string) (w : World) :
  ∃ r w1, on_close userId groupId w = (r, w1)
          ∧ on_close userId groupId w1 = (r, w1)
          ∧ (is_Some (groups w !! groupId) → r = Ok tt).
Proof.
  unfold on_close, groups_members. run.
  destruct (groups w !! groupId) as [g|] eqn:Hg; simpl.
  - eexists _, _. split; [reflexivity|]. simpl.
    rewrite lookup_insert_eq. simpl. unfold set_groups, set_users. simpl.
    by rewrite delete_delete_eq, insert_insert_eq, filter_twice.
  - eexists _, _. split; [reflexivity|]. simpl. rewrite Hg.
    unfold set_users. simpl. rewrite delete_delete_eq.
    split; [done|]. by intros [? ?].
Qed.

Lemma on_close_idempotent_demo :
  ∃ w1, on_close "alice" "g1" demo_world = (Ok tt, w1)
        ∧ on_close "alice" "g1" w1 = (Ok tt, w1)
        ∧ users w1 !! "alice" = None
        ∧ groups w1 !! "g1" = Some {| members := ["bob"] |}.
Proof.
  destruct (on_close_idempotent "alice" "g1" demo_world)
    as (r & w1 & H1 & H2 & Hr).
  rewrite Hr in H1, H2 by (vm_compute; eauto).
  exists w1. split; [exact H1|]. split; [exact H2|].
  vm_compute in H1. inversion H1. split; reflexivity.
Defined.

(** ** [POST /chat] *)

(** C6, as the specification states it, fails in its last part: when
    the provider rejects with an error whose [status] is 429, nothing
    is appended or sent and the handler throws that error, but the
    framework answers it with status 429, which is not a 5xx. *)
Lemma throttled_provider_is_not_answered_5xx :
  post_chat env_ai_throttled
    {| chat_userId := Some "alice"; chat_groupId := Some "g1";
       chat_data :=
         Some {| d_messages := Some []; d_query := Some (text_of_string "help") |} |}
    demo_world
  = (Throw (GroqError (Some 429)),
     append_trace
       [EvCompletion
          [{| role := "system";
              content := Some (text_of_string "You are a support assistant.") |};
           {| role := "user"; content := Some (text_of_string "help") |}]]
       demo_world)
  ∧ default_error_code (Some 429) = 429
  ∧ ¬ (500 ≤ default_error_code (Some 429)).
Proof.
  split; [vm_compute; reflexivity|]. split; [reflexivity|]. by vm_compute.
Qed.

(** C6, amended.  When the request has passed the handler's checks and
    the completion provider rejects, the handler throws the provider's
    error and never answers with a success.  The one call made is the
    completion request: there is no [updateDoc], no [send], and the
    caches and the store are as before, also when other handlers ran
    during the [await].  The framework answers the error with a status
    of 400 or more: 500 when the error carries no status, the error's
    own status when that is 400 or more. *)
Theorem failed_completion_is_isolated (env : Env) (body : ChatBody)
    (userId groupId : string) (data : ChatData) (history : list HistoryItem)
    (status : option Z) (w : World) :
  truthy (chat_userId body) = Some userId →
  truthy (chat_groupId body) = Some groupId →
  chat_data body = Some data →
  users_slot (users w) userId ≠ Vacant →
  d_messages data = Some history →
  create env
    ({| role := "system";
        content := Some (text_of_string "You are a support assistant.") |}
     :: map (λ user, {| role := "user"; content := h_message user |}) history
     ++ [{| role := "user"; content := d_query data |}]) = Rejected status →
  post_chat env body w
  = (Throw (GroqError status),
     append_trace
       [EvCompletion
          ({| role := "system";
              content := Some (text_of_string "You are a support assistant.") |}
           :: map (λ user, {| role := "user"; content := h_message user |}) history
           ++ [{| role := "user"; content := d_query data |}])]
       w)
  ∧ (∀ w2,
       post_chat_resume env
         {| pending_userId := userId; pending_groupId := groupId;
            pending_data := data; pending_outcome := Rejected status |} w2
       = (Throw (GroqError status), w2))
  ∧ 400 ≤ default_error_code status
  ∧ (status = None → default_error_code status = 500)
  ∧ (∀ c, status = Some c → 400 ≤ c → default_error_code status = c).
Proof.
  intros Hu Hg Hd Hw Hh Hfail. split; [|split; [|split; [|split]]].
  - unfold post_chat, post_chat_request, post_chat_resume, spread,
      completions_create, settled.
    rewrite Hu, Hg, Hd. run.
    destruct (users_slot (users w) userId); [done|].
    rewrite Hh. simpl. by rewrite Hfail.
  - intros w2. reflexivity.
  - unfold default_error_code. destruct status as [c|]; [|done].
    destruct (400 <=? c) eqn:Hc; [by apply Z.leb_le in Hc | done].
  - by intros ->.
  - intros c -> Hc. unfold default_error_code.
    by rewrite (proj2 (Z.leb_le 400 c) Hc).
Qed.

Lemma failed_completion_is_isolated_demo :
  ∃ transcript,
    post_chat env_ai_fails
      {| chat_userId := Some "alice"; chat_groupId := Some "g1";
         chat_data :=
           Some {| d_messages := Some [{| h_message := Some (text_of_string "hi") |}];
                   d_query := Some (text_of_string "help") |} |}
      demo_world
    = (Throw (GroqError None), append_trace [EvCompletion transcript] demo_world).
Proof.
  eexists.
  apply (failed_completion_is_isolated env_ai_fails
           {| chat_userId := Some "alice"; chat_groupId := Some "g1";
              chat_data :=
                Some {| d_messages := Some [{| h_message := Some (text_of_string "hi") |}];
                        d_query := Some (text_of_string "help") |} |}
           "alice" "g1"
           {| d_messages := Some [{| h_message := Some (text_of_string "hi") |}];
              d_query := Some (text_of_string "help") |}
           [{| h_message := Some (text_of_string "hi") |}] None demo_world).
  - reflexivity.
  - reflexivity.
  - reflexivity.
  - by vm_compute.
  - reflexivity.
  - reflexivity.
Defined.

(** ** Group management *)

Lemma arrayUnion_elem {A} `{EqDecision A} (l : list A) (x : A) :
  x ∈ arrayUnion l x.
Proof.
  unfold arrayUnion. destruct (decide (x ∈ l)); [done|].
  apply elem_of_app. right. by apply list_elem_of_singleton.
Qed.

Lemma arrayUnion_new {A} `{EqDecision A} (l : list A) (x : A) :
  x ∉ l → arrayUnion l x = l ++ [x].
Proof. intros Hx. unfold arrayUnion. by destruct (decide (x ∈ l)). Qed.

(** What the transaction of [POST /groups] makes of the store. *)
Lemma commit_create (userId groupId groupName : string) (s : Store) :
  commit
    (ensure_user userId s ++
     [SetGroup groupId
        {| g_id := groupId; g_userId := userId; g_name := groupName;
           g_messages := []; g_members := [userId] |};
      UpdateUserGroups userId {| ref_id := groupId; ref_name := groupName |}]) s
  = Some
      {| s_groups :=
           <[groupId :=
               {| g_id := groupId; g_userId := userId; g_name := groupName;
                  g_messages := []; g_members := [userId] |}]> (s_groups s);
         s_users :=
           <[userId :=
               match s_users s !! userId with
               | Some u =>
                   {| u_id := u_id u;
                      u_groups :=
                        arrayUnion (u_groups u)
                          {| ref_id := groupId; ref_name := groupName |} |}
               | None =>
                   {| u_id := userId;
                      u_groups :=
                        [{| ref_id := groupId; ref_name := groupName |}] |}
               end]> (s_users s) |}.
Proof.
  unfold ensure_user. destruct (s_users s !! userId) as [u|] eqn:Hu; simpl.
  - by rewrite Hu.
  - rewrite lookup_insert_eq. unfold put_user, put_group. simpl.
    by rewrite insert_insert_eq.
Qed.

(** C9. [POST /groups] is all or nothing on the store.  Either the
    handler throws and the store is as before, or it answers
    [{ userId, groupId, groupName }] and the store holds both the new
    group document, with [members] equal to [[userId]], and a user
    document whose [groups] contains [{ id: groupId, name }], created
    on the way if it was missing.  The caches are not touched. *)
Theorem post_groups_all_or_nothing (env : Env) (body : CreateBody) (w : World) :
  ∃ r w', post_groups env body w = (r, w')
    ∧ users w' = users w ∧ groups w' = groups w ∧ clients w' = clients w
    ∧ ((∃ e, r = Throw e) ∧ firestore w' = firestore w
       ∨ ∃ userId groupName u',
           truthy (create_userId body) = Some userId
           ∧ truthy (create_groupName body) = Some groupName
           ∧ r = Ok (Sent 200 (BCreated userId (uuidv4 env) groupName))
           ∧ s_groups (firestore w') !! uuidv4 env
             = Some {| g_id := uuidv4 env; g_userId := userId;
                       g_name := groupName; g_messages := [];
                       g_members := [userId] |}
           ∧ s_users (firestore w') !! userId = Some u'
           ∧ {| ref_id := uuidv4 env; ref_name := groupName |} ∈ u_groups u'
           ∧ (s_users (firestore w) !! userId = None →
              u' = {| u_id := userId;
                      u_groups :=
                        [{| ref_id := uuidv4 env; ref_name := groupName |}] |})
           ∧ (∀ u, s_users (firestore w) !! userId = Some u →
              u' = {| u_id := u_id u;
                      u_groups :=
                        arrayUnion (u_groups u)
                          {| ref_id := uuidv4 env; ref_name := groupName |} |})).
Proof.
  unfold post_groups.
  destruct (truthy (create_userId body)) as [userId|] eqn:Hu.
  2:{ eexists _, _. split; [reflexivity|]. repeat (split; [done|]).
      left. eauto. }
  destruct (truthy (create_groupName body)) as [groupName|] eqn:Hn.
  2:{ eexists _, _. split; [reflexivity|]. repeat (split; [done|]).
      left. eauto. }
  unfold clerk_getUser, runTransaction. run.
  destruct (getUser env userId) as [user|].
  2:{ eexists _, _. split; [reflexivity|]. repeat (split; [done|]).
      left. eauto. }
  simpl. destruct (commit_rejects env _).
  { eexists _, _. split; [reflexivity|]. repeat (split; [done|]).
    left. eauto. }
  rewrite commit_create. simpl.
  eexists _, _. split; [reflexivity|]. simpl. repeat (split; [done|]).
  right. eexists userId, groupName, _.
  split; [done|]. split; [done|]. split; [done|].
  split; [apply lookup_insert_eq|].
  split; [apply lookup_insert_eq|].
  destruct (s_users (firestore w) !! userId) as [u|]; simpl.
  - split; [apply arrayUnion_elem|]. split; [done|].
    intros u0 Hu0. by inversion Hu0.
  - split; [by apply list_elem_of_singleton|]. split; done.
Qed.

(** When the identity provider resolves the user and the transaction
    is not refused, [POST /groups] does commit. *)
Lemma post_groups_commits (env : Env) (body : CreateBody) (w : World)
    (userId groupName : string) :
  truthy (create_userId body) = Some userId →
  truthy (create_groupName body) = Some groupName →
  is_Some (getUser env userId) →
  (∀ ws, commit_rejects env ws = false) →
  ∃ w', post_groups env body w
        = (Ok (Sent 200 (BCreated userId (uuidv4 env) groupName)), w').
Proof.
  intros Hu Hn [user Huser] Hcommit. unfold post_groups. rewrite Hu, Hn.
  unfold clerk_getUser, runTransaction. run. rewrite Huser. simpl.
  rewrite Hcommit, commit_create. simpl. eauto.
Qed.

(** What the transaction of [PATCH /groups] makes of a store that
    holds the group. *)
Lemma commit_join (userId groupId : string) (data g : GroupDoc) (s : Store) :
  s_groups s !! groupId = Some g →
  ∃ s', commit
          (ensure_user userId s ++
           [UpdateUserGroups userId
              {| ref_id := g_id data; ref_name := g_name data |};
            UpdateGroupMembers groupId userId]) s = Some s'
        ∧ s_groups s' !! groupId
          = Some (with_members g (arrayUnion (g_members g) userId)).
Proof.
  intros Hg. unfold ensure_user.
  destruct (s_users s !! userId) as [u|] eqn:Hu; simpl.
  - rewrite Hu. simpl. rewrite Hg. eexists. split; [reflexivity|].
    simpl. apply lookup_insert_eq.
  - rewrite lookup_insert_eq. simpl. rewrite Hg. eexists.
    split; [reflexivity|]. simpl. apply lookup_insert_eq.
Qed.

(** C10. A [PATCH /groups] that succeeds answers with the group
    document as [getDoc] returned it before the transaction: when the
    user was not a member yet, the [members] of the answer do not
    contain the user, while the stored document, which the transaction
    has extended, does. *)
Theorem patch_groups_answers_with_stale_record (env : Env) (body : JoinBody)
    (userId groupId : string) (data : GroupDoc) (w : World) :
  truthy (join_userId body) = Some userId →
  truthy (join_groupId body) = Some groupId →
  is_Some (getUser env userId) →
  getDoc_rejects env "groups" groupId = false →
  s_groups (firestore w) !! groupId = Some data →
  (∀ ws, commit_rejects env ws = false) →
  ∃ w', patch_groups env body w = (Ok (Sent 200 (BGroup data)), w')
    ∧ s_groups (firestore w') !! groupId
      = Some (with_members data (arrayUnion (g_members data) userId))
    ∧ (userId ∉ g_members data →
       ∃ stored, s_groups (firestore w') !! groupId = Some stored
                 ∧ userId ∈ g_members stored
                 ∧ userId ∉ g_members data).
Proof.
  intros Hu Hg [user Huser] Hread Hdata Hcommit.
  unfold patch_groups. rewrite Hu, Hg.
  unfold clerk_getUser, getDoc_group, runTransaction. run.
  rewrite Huser. simpl. rewrite (readable _ _ _ Hread). simpl. rewrite Hdata. simpl.
  rewrite Hcommit.
  destruct (commit_join userId groupId data data (firestore w) Hdata)
    as (s' & Hs' & Hlook).
  rewrite Hs'. simpl. eexists. split; [reflexivity|]. simpl.
  split; [done|]. intros Hnot. eexists. split; [done|]. simpl.
  split; [apply arrayUnion_elem | done].
Qed.

Lemma patch_groups_answers_with_stale_record_demo :
  ∃ w', patch_groups demo_env
          {| join_userId := Some "dave"; join_groupId := Some "g1" |} demo_world
        = (Ok (Sent 200 (BGroup g1_doc)), w')
    ∧ ("dave" ∉ g_members g1_doc)
    ∧ s_groups (firestore w') !! "g1"
      = Some (with_members g1_doc ["alice"; "bob"; "dave"]).
Proof.
  destruct (patch_groups_answers_with_stale_record demo_env
              {| join_userId := Some "dave"; join_groupId := Some "g1" |}
              "dave" "g1" g1_doc demo_world)
    as (w' & Hr & Hs & _).
  - reflexivity.
  - reflexivity.
  - vm_compute. eauto.
  - reflexivity.
  - by vm_compute.
  - reflexivity.
  - exists w'. split; [exact Hr|]. split; [|exact Hs].
    simpl. intros Hin. apply elem_of_cons in Hin as [Hin|Hin]; [done|].
    apply list_elem_of_singleton in Hin. done.
Defined.

(** ** What the handlers leave alone *)

Section Frame.

Context (R : World → World → Prop).
Context (R_refl : ∀ w, R w w).
Context (R_trans : ∀ w1 w2 w3, R w1 w2 → R w2 w3 → R w1 w3).
Context (R_emit : ∀ e w, R w (emit e w)).
Context (R_store : ∀ f w, R w (set_firestore f w)).

Lemma preserves_ret {A} (a : A) : preserves R (mret a).
Proof. intros w r w' H. inversion H. apply R_refl. Qed.

Lemma preserves_throw {A} (e : Error) : preserves R (@throw A e).
Proof. intros w r w' H. inversion H. apply R_refl. Qed.

Lemma preserves_bind {A B} (m : M A) (f : A → M B) :
  preserves R m → (∀ a, preserves R (f a)) → preserves R (m ≫= f).
Proof.
  intros Hm Hf w r w' H. unfold mbind, M_bind in H.
  destruct (m w) as [[a|e] w1] eqn:Hmw.
  - eapply R_trans; [by eapply Hm | by eapply Hf].
  - inversion H; subst. by eapply Hm.
Qed.

Lemma preserves_forEach {A} (l : list A) (f : A → M unit) :
  (∀ a, preserves R (f a)) → preserves R (forEach l f).
Proof.
  intros Hf. induction l as [|a l IH]; simpl.
  - apply preserves_ret.
  - apply preserves_bind; [apply Hf | intros _; apply IH].
Qed.

Lemma preserves_get : preserves R get.
Proof. intros w r w' H. inversion H. apply R_refl. Qed.

Lemma preserves_groups_members G : preserves R (groups_members G).
Proof.
  intros w r w' H. unfold groups_members in H.
  destruct (groups w !! G); inversion H; apply R_refl.
Qed.

Lemma preserves_users_name u : preserves R (users_name u).
Proof.
  intros w r w' H. unfold users_name in H.
  destruct (users w !! u); inversion H; apply R_refl.
Qed.

Lemma preserves_send env c p : preserves R (send env c p).
Proof.
  intros w r w' H. unfold send in H.
  destruct (send_raises env (handle c) p); inversion H;
    [apply R_refl | apply R_emit].
Qed.

Lemma preserves_close socket code reason : preserves R (close socket code reason).
Proof. intros w r w' H. inversion H. apply R_emit. Qed.

Lemma preserves_clerk_getUser env u : preserves R (clerk_getUser env u).
Proof.
  intros w r w' H. unfold clerk_getUser in H.
  destruct (getUser env u); inversion H; apply R_emit.
Qed.

Lemma preserves_getDoc_group env G : preserves R (getDoc_group env G).
Proof.
  intros w r w' H. unfold getDoc_group in H.
  destruct (reference env "groups" G); inversion H;
    first [apply R_refl | apply R_emit].
Qed.

Lemma preserves_completions_create env t : preserves R (completions_create env t).
Proof. intros w r w' H. inversion H. apply R_emit. Qed.

Lemma preserves_settled o : preserves R (settled o).
Proof. destruct o; [apply preserves_ret | apply preserves_throw]. Qed.

Lemma preserves_doc env collection id : preserves R (doc env collection id).
Proof.
  intros w r w' H. unfold doc in H.
  destruct (doc_throws env collection id); inversion H; apply R_refl.
Qed.

Lemma preserves_users_slot_name u : preserves R (users_slot_name u).
Proof.
  intros w r w' H. unfold users_slot_name in H.
  destruct (users_slot (users w) u); inversion H; apply R_refl.
Qed.

Lemma preserves_updateDoc_messages env G m :
  preserves R (updateDoc_messages env G m).
Proof.
  intros w r w' H. unfold updateDoc_messages in H.
  destruct (updateDoc_rejects env G m); [inversion H; apply R_emit|].
  destruct (s_groups (firestore w) !! G); inversion H.
  - eapply R_trans; [apply R_emit | apply R_store].
  - apply R_emit.
Qed.

Lemma preserves_runTransaction env body : preserves R (runTransaction env body).
Proof.
  intros w r w' H. unfold runTransaction in H.
  destruct (commit_rejects env _); [inversion H; apply R_emit|].
  destruct (commit _ _); inversion H.
  - eapply R_trans; [apply R_emit | apply R_store].
  - apply R_emit.
Qed.

Lemma preserves_deliverable G c : preserves R (deliverable G c).
Proof.
  unfold deliverable. repeat case_bool_decide; try apply preserves_ret.
  apply preserves_bind; [apply preserves_groups_members|].
  intros ms. apply preserves_ret.
Qed.

Lemma preserves_broadcast env G p : preserves R (broadcast env G p).
Proof.
  unfold broadcast. apply preserves_bind; [apply preserves_get|].
  intros w0. apply preserves_forEach. intros c.
  apply preserves_bind; [apply preserves_deliverable|].
  intros [|]; [apply preserves_send | apply preserves_ret].
Qed.

Lemma preserves_on_message env socket userId groupId data :
  preserves R (on_message env socket userId groupId data).
Proof.
  unfold on_message. apply preserves_bind; [apply preserves_get|].
  intros w0. destruct (users w0 !! userId); [|apply preserves_close].
  destruct (trim data); [apply preserves_ret|].
  apply preserves_bind; [apply preserves_users_name|]. intros nm.
  apply preserves_bind; [apply preserves_updateDoc_messages|]. intros _.
  apply preserves_broadcast.
Qed.

Lemma preserves_post_chat_request env body :
  preserves R (post_chat_request env body).
Proof.
  unfold post_chat_request.
  destruct (truthy (chat_userId body)); [|apply preserves_ret].
  destruct (truthy (chat_groupId body)); [|apply preserves_ret].
  destruct (chat_data body) as [data|]; [|apply preserves_ret].
  apply preserves_bind; [apply preserves_get|]. intros w0.
  destruct (users_slot (users w0) _); [apply preserves_ret|].
  apply preserves_bind.
  { unfold spread. destruct (d_messages data); simpl;
      [apply preserves_ret | apply preserves_throw]. }
  intros history.
  apply preserves_bind; [apply preserves_completions_create|]. intros outcome.
  apply preserves_ret.
Qed.

Lemma preserves_post_chat_resume env pending :
  preserves R (post_chat_resume env pending).
Proof.
  unfold post_chat_resume.
  apply preserves_bind; [apply preserves_settled|]. intros completion.
  apply preserves_bind; [apply preserves_users_slot_name|]. intros nm.
  apply preserves_bind; [apply preserves_doc|]. intros _.
  apply preserves_bind; [apply preserves_updateDoc_messages|]. intros _.
  apply preserves_bind; [apply preserves_broadcast|]. intros _.
  apply preserves_ret.
Qed.

Lemma preserves_post_chat env body : preserves R (post_chat env body).
Proof.
  unfold post_chat.
  apply preserves_bind; [apply preserves_post_chat_request|].
  intros [reply|pending]; [apply preserves_ret | apply preserves_post_chat_resume].
Qed.

Lemma preserves_post_groups env body : preserves R (post_groups env body).
Proof.
  unfold post_groups.
  destruct (truthy (create_userId body)); [|apply preserves_throw].
  destruct (truthy (create_groupName body)); [|apply preserves_throw].
  apply preserves_bind; [apply preserves_clerk_getUser|]. intros _.
  apply preserves_bind; [apply preserves_runTransaction|]. intros _.
  apply preserves_ret.
Qed.

Lemma preserves_patch_groups env body : preserves R (patch_groups env body).
Proof.
  unfold patch_groups.
  destruct (truthy (join_userId body)); [|apply preserves_ret].
  destruct (truthy (join_groupId body)); [|apply preserves_ret].
  apply preserves_bind; [apply preserves_clerk_getUser|]. intros _.
  apply preserves_bind; [apply preserves_getDoc_group|].
  intros [data|]; [|apply preserves_ret].
  apply preserves_bind; [apply preserves_runTransaction|]. intros _.
  apply preserves_ret.
Qed.

End Frame.

(** ** The registry invariant *)

Lemma same_registry_consistent w w' :
  same_registry w w' → registry_consistent w → registry_consistent w'.
Proof.
  intros [Hg Hc] Hw c G. rewrite Hg, Hc. apply Hw.
Qed.

Lemma same_registry_refl w : same_registry w w.
Proof. done. Qed.

Lemma same_registry_trans w1 w2 w3 :
  same_registry w1 w2 → same_registry w2 w3 → same_registry w1 w3.
Proof. intros [? ?] [? ?]. split; congruence. Qed.

Lemma same_registry_emit e w : same_registry w (emit e w).
Proof. done. Qed.

Lemma same_registry_store f w : same_registry w (set_firestore f w).
Proof. done. Qed.

Create HintDb registry.

Local Hint Resolve same_registry_refl same_registry_trans
  same_registry_emit same_registry_store : registry.

(** The message listener and the three HTTP routes read the registry
    and never write it, whatever their outcome. *)
Lemma on_message_keeps_registry env socket userId groupId data :
  preserves same_registry (on_message env socket userId groupId data).
Proof. apply preserves_on_message; eauto with registry. Qed.

Lemma post_chat_keeps_registry env body :
  preserves same_registry (post_chat env body).
Proof. apply preserves_post_chat; eauto with registry. Qed.

Lemma post_groups_keeps_registry env body :
  preserves same_registry (post_groups env body).
Proof. apply preserves_post_groups; eauto with registry. Qed.

Lemma patch_groups_keeps_registry env body :
  preserves same_registry (patch_groups env body).
Proof. apply preserves_patch_groups; eauto with registry. Qed.

(** The [close] listener keeps every entry of [groups] and does not
    touch the clients. *)
Lemma on_close_consistent userId groupId w r w' :
  on_close userId groupId w = (r, w') →
  registry_consistent w → registry_consistent w'.
Proof.
  unfold on_close, groups_members. run.
  destruct (groups w !! groupId) as [g|] eqn:Hg; simpl;
    intros H Hw; inversion H; subst; intros c G Hc Ht; simpl in *.
  - destruct (decide (groupId = G)) as [->|Hne].
    + rewrite lookup_insert_eq. eauto.
    + rewrite lookup_insert_ne by done. by eapply Hw.
  - by eapply Hw.
Qed.

(** An accepted connection: the user is cached under the identity
    provider's id, [groups[groupId]] holds the fetched member list, and
    the two listeners are registered. *)
Lemma accepted_connection (env : Env) (socket : nat)
    (q_userId q_groupId : option string) (userId groupId : string)
    (user : ClerkUser) (group : GroupDoc) (w : World) :
  truthy q_userId = Some userId →
  truthy q_groupId = Some groupId →
  getUser env userId = Some user →
  getDoc_rejects env "groups" groupId = false →
  s_groups (firestore w) !! groupId = Some group →
  userId ∈ g_members group →
  ∃ w', message_route env socket q_userId q_groupId w
        = (Ok (Listening userId groupId), w')
    ∧ is_Some (users w' !! c_id user)
    ∧ groups w' !! groupId = Some {| members := g_members group |}
    ∧ firestore w' = firestore w
    ∧ trace w' = trace w ++ [EvGetUser userId; EvGetDoc "groups" groupId].
Proof.
  intros Hu Hg Huser Hrej Hgroup Hin. unfold message_route. rewrite Hu, Hg.
  unfold doc, doc_throws, clerk_getUser, getDoc_group, set_sock_id,
    set_sock_groupId. run.
  rewrite (readable _ _ _ Hrej). simpl. rewrite Huser. simpl. rewrite Hgroup.
  rewrite some_strict_eq, (bool_decide_eq_true_2 _ Hin). simpl.
  eexists. split; [reflexivity|]. simpl.
  split; [rewrite lookup_insert_eq; eauto|].
  split; [apply lookup_insert_eq|].
  split; [done|]. by rewrite <- app_assoc.
Qed.

(** The connection handler keeps the registry consistent: it tags the
    socket only after it has written [groups[groupId]]. *)
Lemma message_route_consistent env socket q_userId q_groupId w r w' :
  message_route env socket q_userId q_groupId w = (r, w') →
  registry_consistent w → registry_consistent w'.
Proof.
  unfold message_route.
  destruct (truthy q_userId) as [userId|]; [|by inversion 1].
  destruct (truthy q_groupId) as [groupId|]; [|by inversion 1].
  unfold doc, doc_throws, clerk_getUser, getDoc_group, set_sock_id,
    set_sock_groupId, close. run.
  destruct (reference env "groups" groupId); simpl; [by inversion 1| |];
    (destruct (getUser env userId) as [user|]; simpl; [|by inversion 1]);
    [by inversion 1|].
  destruct (s_groups (firestore w) !! groupId) as [group|]; simpl;
    [|by inversion 1].
  destruct (existsb _ _); simpl; [|by inversion 1].
  intros H Hw. inversion H; subst. clear H. intros c G Hc Ht. simpl in *.
  assert (Hkeep : ∀ G', is_Some (groups w !! G') →
            is_Some (<[groupId := {| members := g_members group |}]> (groups w) !! G')).
  { intros G' HG'. destruct (decide (groupId = G')) as [->|Hne].
    - rewrite lookup_insert_eq. eauto.
    - by rewrite lookup_insert_ne. }
  apply list_elem_of_fmap in Hc as (c1 & -> & Hc1).
  apply list_elem_of_fmap in Hc1 as (c0 & -> & Hc0).
  destruct (decide (handle c0 = socket)) as [Hh|Hh]; simpl in Ht.
  - rewrite decide_True in Ht by done. simpl in Ht.
    inversion Ht; subst G. rewrite lookup_insert_eq. eauto.
  - rewrite decide_False in Ht by done. apply Hkeep. by eapply Hw.
Qed.

(** In a consistent registry where no write raises, a broadcast never
    throws. *)
Lemma broadcast_in_consistent_registry (env : Env) (G : string)
    (p : Payload) (w : World) :
  registry_consistent w →
  (∀ c, send_raises env (handle c) p = false) →
  broadcast env G p w
  = (Ok tt, append_trace (deliveries p G (groups w) (clients w)) w).
Proof.
  intros Hw Hs. unfold broadcast. run. apply forEach_deliveries.
  - intros c Hc _ Ht. by eapply Hw.
  - intros c _ _. apply Hs.
Qed.

(** ** The message listener when the append succeeds *)

(** A non-empty frame from a connected user whose append the store
    accepts: the message is added to the group document and the
    broadcast runs on the resulting state. *)
Lemma on_message_appends_then_broadcasts (env : Env) (socket : nat)
    (userId groupId : string) (data : text) (w : World) (u : ConnectedUser)
    (g : GroupDoc) :
  users w !! userId = Some u →
  trim data ≠ [] →
  updateDoc_rejects env groupId
    (UserMessage userId (name u) (trim data) (now env)) = false →
  s_groups (firestore w) !! groupId = Some g →
  on_message env socket userId groupId data w
  = broadcast env groupId
      (JSON_stringify (UserMessage userId (name u) (trim data) (now env)))
      (set_firestore
         (put_group groupId
            (with_messages g
               (arrayUnion (g_messages g)
                  (UserMessage userId (name u) (trim data) (now env)))))
         (emit (EvUpdateDoc groupId
                  (UserMessage userId (name u) (trim data) (now env))) w)).
Proof.
  intros Hu Ht Hok Hg. unfold on_message, users_name, updateDoc_messages. run.
  rewrite Hu. destruct (trim data) as [|c s] eqn:Hd; [done|].
  rewrite Hu. simpl. rewrite Hok, Hg. reflexivity.
Qed.

(** * Further properties of the handlers *)

(** ** Reading a group's history *)

(** [GET /messages] hands out a group document only with status 200,
    only the stored document of the group asked for, and only to a user
    whom the identity provider knows and the document lists as member. *)
Theorem history_only_for_members (env : Env) (q_userId q_groupId : option string)
    (w w' : World) (code : Z) (d : GroupDoc) :
  get_messages env q_userId q_groupId w = (Ok (Sent code (BGroup d)), w') →
  code = 200
  ∧ ∃ userId groupId,
      truthy q_userId = Some userId ∧ truthy q_groupId = Some groupId
      ∧ is_Some (getUser env userId)
      ∧ s_groups (firestore w) !! groupId = Some d
      ∧ userId ∈ g_members d.
Proof.
  unfold get_messages.
  destruct (truthy q_userId) as [userId|] eqn:Hu; [|by inversion 1].
  destruct (truthy q_groupId) as [groupId|] eqn:Hg; [|by inversion 1].
  unfold clerk_getUser, getDoc_group. run.
  destruct (getUser env userId) as [user|] eqn:Huser; simpl; [|by inversion 1].
  destruct (reference env "groups" groupId); simpl; [by inversion 1|by inversion 1|].
  destruct (s_groups (firestore w) !! groupId) as [data|] eqn:Hd; simpl;
    [|by inversion 1].
  rewrite some_strict_eq. case_bool_decide as Hin; simpl; [|by inversion 1].
  intros H. inversion H; subst. split; [done|].
  exists userId, groupId. split_and!; eauto.
Qed.

Lemma history_only_for_members_demo :
  200 = 200
  ∧ ∃ userId groupId,
      truthy (Some "alice") = Some userId ∧ truthy (Some "g1") = Some groupId
      ∧ is_Some (getUser demo_env userId)
      ∧ s_groups (firestore demo_world) !! groupId = Some g1_doc
      ∧ userId ∈ g_members g1_doc.
Proof.
  apply (history_only_for_members demo_env (Some "alice") (Some "g1") demo_world
           (append_trace [EvGetUser "alice"; EvGetDoc "groups" "g1"] demo_world)).
  vm_compute. reflexivity.
Defined.

Lemma message_route_admits (env : Env) (socket : nat)
    (q_userId q_groupId : option string) (w : World) :
  (∃ userId groupId w',
     message_route env socket q_userId q_groupId w
     = (Ok (Listening userId groupId), w'))
  ↔ admitted env w q_userId q_groupId.
Proof.
  split.
  - intros (u & g & w' & H). revert H. unfold message_route.
    destruct (truthy q_userId) as [userId|] eqn:Hu; [|by inversion 1].
    destruct (truthy q_groupId) as [groupId|] eqn:Hg; [|by inversion 1].
    unfold doc, doc_throws, clerk_getUser, getDoc_group, close. run.
    destruct (reference env "groups" groupId) eqn:Href; simpl;
      [by inversion 1| |];
      (destruct (getUser env userId) as [user|] eqn:Huser; simpl;
         [|by inversion 1]); [by inversion 1|].
    assert (Hrej : getDoc_rejects env "groups" groupId = false)
      by (unfold getDoc_rejects; by rewrite Href).
    destruct (s_groups (firestore w) !! groupId) as [data|] eqn:Hd; simpl;
      [|by inversion 1].
    rewrite some_strict_eq. case_bool_decide as Hin; simpl; [|by inversion 1].
    intros _. exists userId, groupId, data. split_and!; eauto.
  - intros (userId & groupId & d & Hu & Hg & [user Huser] & Hrej & Hd & Hin).
    destruct (accepted_connection env socket q_userId q_groupId userId groupId
                user d w Hu Hg Huser Hrej Hd Hin) as (w' & H & _).
    eauto.
Qed.

Lemma get_messages_admits (env : Env) (q_userId q_groupId : option string)
    (w : World) :
  (∃ d w', get_messages env q_userId q_groupId w
           = (Ok (Sent 200 (BGroup d)), w'))
  ↔ admitted env w q_userId q_groupId.
Proof.
  split.
  - intros (d & w' & H).
    destruct (truthy q_userId) as [userId|] eqn:Hu;
      [|by unfold get_messages in H; rewrite Hu in H; inversion H].
    destruct (truthy q_groupId) as [groupId|] eqn:Hg;
      [|by unfold get_messages in H; rewrite Hu, Hg in H; inversion H].
    revert H. unfold get_messages. rewrite Hu, Hg.
    unfold clerk_getUser, getDoc_group. run.
    destruct (getUser env userId) as [user|] eqn:Huser; simpl; [|by inversion 1].
    destruct (reference env "groups" groupId) eqn:Href; simpl;
      [by inversion 1|by inversion 1|].
      assert (Hrej : getDoc_rejects env "groups" groupId = false)
        by (unfold getDoc_rejects; by rewrite Href).
    destruct (s_groups (firestore w) !! groupId) as [data|] eqn:Hd; simpl;
      [|by inversion 1].
    rewrite some_strict_eq. case_bool_decide as Hin; simpl; [|by inversion 1].
    intros H. inversion H; subst.
    exists userId, groupId, d. split_and!; eauto.
  - intros (userId & groupId & d & Hu & Hg & [user Huser] & Hrej & Hd & Hin).
    unfold get_messages. rewrite Hu, Hg.
    unfold clerk_getUser, getDoc_group. run.
    rewrite Huser. simpl. rewrite (readable _ _ _ Hrej). simpl. rewrite Hd. simpl.
    rewrite some_strict_eq, (bool_decide_eq_true_2 _ Hin). simpl. eauto.
Qed.

(** The socket endpoint and [GET /messages] admit the same requests:
    on the same state and with the same collaborators, a connection is
    accepted exactly when the history request is answered with the
    group document. *)
Theorem history_and_socket_admit_alike (env : Env) (socket : nat)
    (q_userId q_groupId : option string) (w : World) :
  (∃ userId groupId w',
     message_route env socket q_userId q_groupId w
     = (Ok (Listening userId groupId), w'))
  ↔ (∃ d w', get_messages env q_userId q_groupId w
             = (Ok (Sent 200 (BGroup d)), w')).
Proof.
  rewrite message_route_admits. symmetry. apply get_messages_admits.
Qed.

(** ** Who writes what *)

Section FrameMore.

Context (R : World → World → Prop).
Context (R_refl : ∀ w, R w w).
Context (R_trans : ∀ w1 w2 w3, R w1 w2 → R w2 w3 → R w1 w3).
Context (R_emit : ∀ e w, R w (emit e w)).
Context (R_users : ∀ f w, R w (set_users f w)).
Context (R_groups : ∀ f w, R w (set_groups f w)).
Context (R_clients : ∀ f w, R w (set_clients f w)).

Lemma preserves_try_catch {A} (m : M A) (h : Error → M A) :
  preserves R m → (∀ e, preserves R (h e)) → preserves R (try_catch m h).
Proof.
  intros Hm Hh w r w' H. unfold try_catch in H.
  destruct (m w) as [[a|e] w1] eqn:Hmw.
  - inversion H; subst. by eapply Hm.
  - eapply R_trans; [by eapply Hm | by eapply Hh].
Qed.

Lemma preserves_modify (f : World → World) :
  (∀ w, R w (f w)) → preserves R (modify f).
Proof. intros Hf w r w' H. inversion H. apply Hf. Qed.

Lemma preserves_getDoc_user env u : preserves R (getDoc_user env u).
Proof.
  intros w r w' H. unfold getDoc_user in H.
  destruct (reference env "users" u); inversion H;
    first [apply R_refl | apply R_emit].
Qed.

Lemma preserves_get_messages env q_userId q_groupId :
  preserves R (get_messages env q_userId q_groupId).
Proof.
  unfold get_messages.
  destruct (truthy q_userId); [|by apply preserves_ret].
  destruct (truthy q_groupId); [|by apply preserves_ret].
  apply preserves_bind; [done | by apply preserves_clerk_getUser|]. intros _.
  apply preserves_bind; [done | by apply preserves_getDoc_group|].
  intros [data|]; [|by apply preserves_ret].
  destruct (negb _); by apply preserves_ret.
Qed.

Lemma preserves_get_groups env q_userId :
  preserves R (get_groups env q_userId).
Proof.
  unfold get_groups.
  destruct (truthy q_userId); [|by apply preserves_throw].
  apply preserves_bind; [done | by apply preserves_clerk_getUser|]. intros _.
  apply preserves_bind; [done | by apply preserves_getDoc_user|].
  intros snap. by apply preserves_ret.
Qed.

Lemma preserves_on_close userId groupId :
  preserves R (on_close userId groupId).
Proof.
  unfold on_close.
  apply preserves_bind; [done | by apply preserves_modify|]. intros _.
  apply preserves_bind; [done | by apply preserves_groups_members|].
  intros ms. by apply preserves_modify.
Qed.

Lemma preserves_message_route env socket q_userId q_groupId :
  preserves R (message_route env socket q_userId q_groupId).
Proof.
  unfold message_route.
  destruct (truthy q_userId); [|by apply preserves_throw].
  destruct (truthy q_groupId); [|by apply preserves_throw].
  apply preserves_bind; [done | by apply preserves_doc|]. intros _.
  apply preserves_try_catch.
  - apply preserves_bind; [done | by apply preserves_clerk_getUser|].
    intros user.
    apply preserves_bind; [done | by apply preserves_getDoc_group|].
    intros [group|]; [|by apply preserves_throw].
    destruct (negb _); [by apply preserves_throw|].
    apply preserves_bind; [done | by apply preserves_modify|]. intros _.
    apply preserves_bind; [done | by apply preserves_modify|]. intros _.
    apply preserves_bind;
      [done | by unfold set_sock_id; apply preserves_modify|]. intros _.
    apply preserves_bind;
      [done | by unfold set_sock_groupId; apply preserves_modify|]. intros _.
    by apply preserves_ret.
  - intros e. apply preserves_bind; [done | by apply preserves_close|].
    intros _. by apply preserves_ret.
Qed.

End FrameMore.

Lemma same_caches_trans w1 w2 w3 :
  same_caches w1 w2 → same_caches w2 w3 → same_caches w1 w3.
Proof. intros (? & ? & ?) (? & ? & ?). repeat split; congruence. Qed.

Lemma same_store_trans w1 w2 w3 :
  same_store w1 w2 → same_store w2 w3 → same_store w1 w3.
Proof. unfold same_store. congruence. Qed.

(** [users], [groups] and the sockets' tags are written by the
    connection handler and the [close] listener alone: the [message]
    listener and the five HTTP routes leave them as they are, whether
    they return or throw. *)
Theorem caches_written_only_by_connection_and_close (env : Env) :
  (∀ socket userId groupId data,
     preserves same_caches (on_message env socket userId groupId data))
  ∧ (∀ body, preserves same_caches (post_chat env body))
  ∧ (∀ body, preserves same_caches (post_groups env body))
  ∧ (∀ body, preserves same_caches (patch_groups env body))
  ∧ (∀ q_userId q_groupId,
       preserves same_caches (get_messages env q_userId q_groupId))
  ∧ (∀ q_userId, preserves same_caches (get_groups env q_userId)).
Proof.
  assert (Hrefl : ∀ w, same_caches w w) by done.
  assert (Hemit : ∀ e w, same_caches w (emit e w)) by done.
  assert (Hstore : ∀ f w, same_caches w (set_firestore f w)) by done.
  pose proof same_caches_trans as Htrans.
  split_and!; intros.
  - by apply preserves_on_message.
  - by apply preserves_post_chat.
  - by apply preserves_post_groups.
  - by apply preserves_patch_groups.
  - by apply preserves_get_messages.
  - by apply preserves_get_groups.
Qed.

(** The store is written by [updateDoc] and the two transactions alone:
    the connection handler, the [close] listener, a broadcast and the
    two [GET] routes leave every document as it is, whether they return
    or throw. *)
Theorem store_untouched_by_registry_and_reads (env : Env) :
  (∀ socket q_userId q_groupId,
     preserves same_store (message_route env socket q_userId q_groupId))
  ∧ (∀ userId groupId, preserves same_store (on_close userId groupId))
  ∧ (∀ G p, preserves same_store (broadcast env G p))
  ∧ (∀ q_userId q_groupId,
       preserves same_store (get_messages env q_userId q_groupId))
  ∧ (∀ q_userId, preserves same_store (get_groups env q_userId)).
Proof.
  assert (Hrefl : ∀ w, same_store w w) by done.
  assert (Hemit : ∀ e w, same_store w (emit e w)) by done.
  assert (Husers : ∀ f w, same_store w (set_users f w)) by done.
  assert (Hgroups : ∀ f w, same_store w (set_groups f w)) by done.
  assert (Hclients : ∀ f w, same_store w (set_clients f w)) by done.
  pose proof same_store_trans as Htrans.
  split_and!; intros.
  - by apply preserves_message_route.
  - by apply preserves_on_close.
  - by apply preserves_broadcast.
  - by apply preserves_get_messages.
  - by apply preserves_get_groups.
Qed.

(** ** Every run keeps the registry consistent *)

Lemma step_consistent w w' :
  Step w w' → registry_consistent w → registry_consistent w'.
Proof.
  assert (Hrefl : ∀ w, same_registry w w) by done.
  assert (Hemit : ∀ e w, same_registry w (emit e w)) by done.
  destruct 1 as [env socket qu qg w r w' H|env socket u g data w r w' H
                |u g w r w' H|env body w r w' H|env body w r w' H
                |env pending w r w' H|env body w r w' H
                |env body w r w' H|env qu qg w r w' H|env qu w r w' H
                |l w Hl|f w]; intros Hw.
  - by eapply message_route_consistent.
  - eapply same_registry_consistent; [|done].
    by eapply on_message_keeps_registry.
  - by eapply on_close_consistent.
  - eapply same_registry_consistent; [|done].
    by eapply post_chat_keeps_registry.
  - eapply same_registry_consistent; [|done].
    eapply (preserves_post_chat_request same_registry);
      eauto using same_registry_trans.
  - eapply same_registry_consistent; [|done].
    eapply (preserves_post_chat_resume same_registry);
      eauto using same_registry_trans.
  - eapply same_registry_consistent; [|done].
    by eapply post_groups_keeps_registry.
  - eapply same_registry_consistent; [|done].
    by eapply patch_groups_keeps_registry.
  - eapply same_registry_consistent; [|done].
    eapply (preserves_get_messages same_registry); eauto using same_registry_trans.
  - eapply same_registry_consistent; [|done].
    eapply (preserves_get_groups same_registry); eauto using same_registry_trans.
  - intros c' G Hc' Ht. simpl in *.
    destruct (Hl c' Hc') as [Hnone|(c & Hc & Heq)]; [congruence|].
    eapply Hw; [done|]. by rewrite Heq.
  - done.
Qed.

(** In every state the server can reach from its start, each tagged
    client's group has an entry in [groups]: the read of
    [groups[groupId].members] in the broadcast loop cannot fail on a
    client that passed the first two tests. *)
Theorem reachable_registry_consistent (w : World) :
  reachable w → registry_consistent w.
Proof.
  induction 1 as [s|w w' _ IH Hstep].
  - intros c G Hc. simpl in Hc. by apply elem_of_nil in Hc.
  - by eapply step_consistent.
Qed.

Lemma reachable_registry_consistent_demo :
  registry_consistent
    (message_route demo_env 7 (Some "alice") (Some "g1")
       (set_clients (λ _, [sock 7 1 None None])
          (startup (firestore demo_world)))).2.
Proof.
  apply reachable_registry_consistent.
  apply (reach_step (set_clients (λ _, [sock 7 1 None None])
                       (startup (firestore demo_world)))).
  - apply (reach_step (startup (firestore demo_world))); [apply reach_startup|].
    apply (step_transport [sock 7 1 None None]). intros c' Hc'. left.
    apply list_elem_of_singleton in Hc'. by subst c'.
  - eapply step_connection. apply surjective_pairing.
Defined.

(** ** What a broadcast can send *)

(** Whatever a broadcast for [G] ends in, what it has sent is an
    initial part of the list of eligible clients in iteration order:
    it never writes to a client that is closed, tagged with another
    group or outside [groups[G].members], never writes twice to a
    client and never skips one to serve a later one; when it returns
    normally it has served them all. *)
Theorem broadcast_sends_a_prefix (env : Env) (G : string) (p : Payload)
    (w w' : World) (r : Res unit) :
  broadcast env G p w = (r, w') →
  ∃ evs, w' = append_trace evs w
         ∧ evs `prefix_of` deliveries p G (groups w) (clients w)
         ∧ (r = Ok tt → evs = deliveries p G (groups w) (clients w)).
Proof.
  unfold broadcast. run. apply forEach_prefix.
Qed.

Lemma broadcast_sends_a_prefix_demo :
  ∃ evs,
    demo_world = append_trace evs demo_world
    ∧ evs `prefix_of`
        deliveries (JSON_stringify hello) "g1" (groups demo_world)
          (clients demo_world)
    ∧ (Throw SendError = Ok tt →
       evs = deliveries (JSON_stringify hello) "g1" (groups demo_world)
               (clients demo_world)).
Proof.
  apply (broadcast_sends_a_prefix env_send_raises "g1" (JSON_stringify hello)
           demo_world demo_world (Throw SendError)).
  vm_compute. reflexivity.
Defined.

(** ** What a frame turns into *)

Lemma trimStart_clean s : clean (trimStart s).
Proof.
  induction s as [|c s IH]; simpl; [done|].
  destruct (isWhiteSpace c) eqn:Hc; [done|]. simpl. done.
Qed.

Lemma trimStart_id s : clean s → trimStart s = s.
Proof. destruct s as [|c s]; simpl; [done|]. by intros ->. Qed.

Lemma clean_app_l a b : clean (a ++ b) → clean a.
Proof. by destruct a. Qed.

Lemma trim_clean s : clean (trim s) ∧ clean (rev (trim s)).
Proof.
  unfold trim, trimEnd. rewrite rev_involutive.
  split; [|apply trimStart_clean].
  destruct (trimStart_suffix (rev (trimStart s))) as (p & Hs & _).
  apply (f_equal (@rev N)) in Hs.
  rewrite rev_involutive, rev_app_distr in Hs.
  pose proof (trimStart_clean s) as Hc. rewrite Hs in Hc.
  by apply clean_app_l in Hc.
Qed.

Lemma trim_fixed s : clean s → clean (rev s) → trim s = s.
Proof.
  intros H1 H2. unfold trim, trimEnd.
  by rewrite (trimStart_id s H1), (trimStart_id _ H2), rev_involutive.
Qed.

Lemma trim_idempotent s : trim (trim s) = trim s.
Proof. apply trim_fixed; apply trim_clean. Qed.

(** A frame from a connected user that is not all white space leads to
    exactly one [updateDoc], for the message whose text is the trimmed
    frame: it is not empty and neither begins nor ends with white
    space.  Whatever the outcome, nothing else leaves the process but
    sends of that message to eligible clients of the group, in
    iteration order. *)
Theorem nonblank_frame_trace (env : Env) (socket : nat)
    (userId groupId : string) (data : text) (w w' : World)
    (u : ConnectedUser) (r : Res unit) :
  users w !! userId = Some u →
  ¬ Forall blank data →
  on_message env socket userId groupId data w = (r, w') →
  ∃ msg sends,
    msg = trim data ∧ msg ≠ [] ∧ clean msg ∧ clean (rev msg)
    ∧ trace w'
      = trace w
        ++ EvUpdateDoc groupId (UserMessage userId (name u) msg (now env))
        :: sends
    ∧ sends `prefix_of`
        deliveries (JSON_stringify (UserMessage userId (name u) msg (now env)))
          groupId (groups w) (clients w).
Proof.
  intros Hu Hnb H.
  assert (Ht : trim data ≠ []) by (intros Ht; by apply Hnb, trim_nil_inv).
  exists (trim data).
  destruct (trim_clean data) as [Hc1 Hc2].
  revert H. unfold on_message, users_name, updateDoc_messages. run.
  rewrite Hu. destruct (trim data) as [|c s] eqn:Hd; [done|].
  rewrite Hu. simpl.
  destruct (updateDoc_rejects env groupId _).
  { intros H. inversion H; subst. exists []. simpl.
    split_and!; try done. apply prefix_nil. }
  destruct (s_groups (firestore w) !! groupId) as [g|].
  2:{ intros H. inversion H; subst. exists []. simpl.
      split_and!; try done. apply prefix_nil. }
  simpl.
  match goal with
  | |- context [broadcast env groupId ?p ?w0] =>
      destruct (broadcast env groupId p w0) as [[[]|e] w1] eqn:Hb
  end;
    unfold broadcast in Hb; run; apply forEach_prefix in Hb as (evs & -> & Hpre & _);
    intros H; inversion H; subst; exists evs; simpl;
    (split_and!; [done | done | done | done | by rewrite <- app_assoc | done]).
Qed.

Lemma nonblank_frame_trace_demo :
  ∃ msg sends,
    msg = trim (text_of_string "  hello ") ∧ msg ≠ [] ∧ clean msg ∧ clean (rev msg)
    ∧ trace (on_message demo_env 1 "alice" "g1" (text_of_string "  hello ")
               demo_world).2
      = trace demo_world
        ++ EvUpdateDoc "g1"
             (UserMessage "alice" (text_of_string "Alice A") msg (now demo_env))
        :: sends
    ∧ sends `prefix_of`
        deliveries
          (JSON_stringify
             (UserMessage "alice" (text_of_string "Alice A") msg (now demo_env)))
          "g1" (groups demo_world) (clients demo_world).
Proof.
  apply (nonblank_frame_trace demo_env 1 "alice" "g1" (text_of_string "  hello ")
           demo_world _ {| name := text_of_string "Alice A" |}
           (on_message demo_env 1 "alice" "g1" (text_of_string "  hello ")
              demo_world).1).
  - by vm_compute.
  - intros H. apply trim_blank in H. by vm_compute in H.
  - apply surjective_pairing.
Defined.

(** ** After a socket has closed *)

Lemma on_close_users userId groupId w r w1 :
  on_close userId groupId w = (r, w1) → users w1 = delete userId (users w).
Proof.
  unfold on_close, groups_members. run.
  destruct (groups w !! groupId); simpl; by inversion 1.
Qed.

(** Once the [close] listener has run for a user, with whatever
    outcome, the user is gone from [users].  For a user id that is not
    a property name of [Object.prototype], a frame on any socket
    registered for that user then gets the socket closed with 4001 and
    nothing else, and an AI chat request is answered 401 without a
    provider call.  A user connected on two sockets loses both
    services when one of them closes. *)
Theorem closed_user_is_locked_out (userId groupId : string) (w w1 : World)
    (r : Res unit) :
  prototype_name userId = None →
  on_close userId groupId w = (r, w1) →
  (∀ env socket G data,
     on_message env socket userId G data w1
     = (Ok tt, append_trace [EvClose socket 4001 "Error: Unauthorized."] w1))
  ∧ (∀ env body G data,
       truthy (chat_userId body) = Some userId →
       truthy (chat_groupId body) = Some G →
       chat_data body = Some data →
       post_chat env body w1 = (Ok (Sent 401 (BText "Unauthenticated.")), w1)).
Proof.
  intros Hplain H. apply on_close_users in H.
  assert (Hgone : users w1 !! userId = None)
    by (rewrite H; apply lookup_delete_eq).
  split.
  - intros env socket G data. unfold on_message, close. run. by rewrite Hgone.
  - intros env body G data Hu Hg Hd.
    unfold post_chat, post_chat_request, users_slot. rewrite Hu, Hg, Hd.
    run. by rewrite Hgone, Hplain.
Qed.

Lemma closed_user_is_locked_out_demo :
  (∀ env socket G data,
     on_message env socket "alice" G data (on_close "alice" "g1" demo_world).2
     = (Ok tt,
        append_trace [EvClose socket 4001 "Error: Unauthorized."]
          (on_close "alice" "g1" demo_world).2))
  ∧ (∀ env body G data,
       truthy (chat_userId body) = Some "alice" →
       truthy (chat_groupId body) = Some G →
       chat_data body = Some data →
       post_chat env body (on_close "alice" "g1" demo_world).2
       = (Ok (Sent 401 (BText "Unauthenticated.")),
          (on_close "alice" "g1" demo_world).2)).
Proof.
  apply (closed_user_is_locked_out "alice" "g1" demo_world _
           (on_close "alice" "g1" demo_world).1).
  - reflexivity.
  - apply surjective_pairing.
Defined.

(** The same request for the id ["constructor"], which [users]
    inherits from [Object.prototype], passes the 401 check although
    nobody is connected under it: the provider is called and its reply
    is recorded under the name ["Object"] and broadcast. *)
Lemma inherited_key_passes_the_check :
  users demo_world !! "constructor" = None
  ∧ post_chat demo_env
      {| chat_userId := Some "constructor"; chat_groupId := Some "g1";
         chat_data := Some {| d_messages := Some []; d_query := None |} |}
      demo_world
    = (Ok NotSent,
       set_firestore
         (put_group "g1"
            (with_messages g1_doc
               [AiMessage "constructor" (text_of_string "Object") None
                  (text_of_string "Hello!") 1700000000000]))
         (append_trace
            [EvCompletion
               [{| role := "system";
                   content := Some (text_of_string "You are a support assistant.") |};
                {| role := "user"; content := None |}];
             EvUpdateDoc "g1"
               (AiMessage "constructor" (text_of_string "Object") None
                  (text_of_string "Hello!") 1700000000000);
             EvSend 1
               (JSON_stringify
                  (AiMessage "constructor" (text_of_string "Object") None
                     (text_of_string "Hello!") 1700000000000));
             EvSend 2
               (JSON_stringify
                  (AiMessage "constructor" (text_of_string "Object") None
                     (text_of_string "Hello!") 1700000000000))]
            demo_world)).
Proof.
  split; [by vm_compute|]. vm_compute. reflexivity.
Qed.

Lemma elem_of_filter_ne (x y : string) (l : list string) :
  x ∈ filter (λ id, id ≠ y) l ↔ x ≠ y ∧ x ∈ l.
Proof. apply (list_elem_of_filter (λ id, id ≠ y)). Qed.

(** When the [close] listener returns for [userId] and [groupId], no
    socket tagged with that user is eligible for the group's
    broadcasts any more, other sockets the user has open included;
    every other user's eligibility, and everything about other groups,
    is as before. *)
Theorem close_ends_the_users_eligibility (userId groupId : string)
    (w w1 : World) :
  on_close userId groupId w = (Ok tt, w1) →
  ∀ c G,
    receives (groups w1) G c
    ↔ receives (groups w) G c ∧ ¬ (G = groupId ∧ sock_id c = Some userId).
Proof.
  unfold on_close, groups_members. run.
  destruct (groups w !! groupId) as [g0|] eqn:Hg0; simpl; [|by inversion 1].
  intros H. inversion H; subst. clear H. intros c G. simpl.
  unfold receives. destruct (decide (G = groupId)) as [->|Hne].
  - rewrite lookup_insert_eq, Hg0. split.
    + intros (Hr & Ht & g & u & Hg & Hu & Hin).
      inversion Hg; subst g. simpl in Hin.
      apply elem_of_filter_ne in Hin as [Hne Hin].
      split; [|intros [_ Hc]; congruence].
      split; [done|]. split; [done|]. by exists g0, u.
    + intros [(Hr & Ht & g & u & Hg & Hu & Hin) Hnot].
      inversion Hg; subst g.
      split; [done|]. split; [done|]. eexists _, u. split; [done|].
      split; [done|]. simpl. apply elem_of_filter_ne. split; [|done].
      intros ->. by apply Hnot.
  - rewrite lookup_insert_ne by done. split.
    + intros Hrec. split; [done|]. by intros [? _].
    + by intros [Hrec _].
Qed.

Lemma close_ends_the_users_eligibility_demo :
  receives (groups (on_close "alice" "g1" demo_world).2) "g1" alice_socket
  ↔ receives (groups demo_world) "g1" alice_socket
    ∧ ¬ ("g1" = "g1" ∧ sock_id alice_socket = Some "alice").
Proof.
  apply (close_ends_the_users_eligibility "alice" "g1" demo_world).
  vm_compute. reflexivity.
Defined.

(** ** [POST /chat]: replies and the missing history *)

(** The only replies [POST /chat] sends itself are the 400 and 401 of
    its opening checks, and it sends them before any call or write:
    the state is untouched.  On its successful path the handler ends
    without sending anything. *)
Theorem post_chat_replies_only_errors (env : Env) (body : ChatBody)
    (w w' : World) (code : Z) (b : Body) :
  post_chat env body w = (Ok (Sent code b), w') →
  w' = w ∧ (code = 400 ∨ code = 401).
Proof.
  unfold post_chat, post_chat_request.
  destruct (truthy (chat_userId body)) as [userId|];
    [|intros H; inversion H; eauto].
  destruct (truthy (chat_groupId body)) as [groupId|];
    [|intros H; inversion H; eauto].
  destruct (chat_data body) as [data|]; [|intros H; inversion H; eauto].
  unfold post_chat_resume, spread, completions_create, settled,
    users_slot_name, doc. run.
  destruct (users_slot (users w) userId) as [|n] eqn:Hu;
    [intros H; inversion H; eauto|].
  destruct (d_messages data) as [history|]; simpl; [|by inversion 1].
  destruct (create env _) as [completion|status]; simpl; [|by inversion 1].
  rewrite Hu. simpl.
  destruct (doc_throws env "groups" groupId); [by inversion 1|].
  destruct (updateDoc_messages env groupId _ _) as [[[]|e] w1]; [|by inversion 1].
  destruct (broadcast env groupId _ w1) as [[[]|e] w2]; by inversion 1.
Qed.

Lemma post_chat_replies_only_errors_demo :
  demo_world = demo_world ∧ (401 = 400 ∨ 401 = 401).
Proof.
  apply (post_chat_replies_only_errors demo_env
           {| chat_userId := Some "dave"; chat_groupId := Some "g1";
              chat_data := Some {| d_messages := Some []; d_query := None |} |}
           demo_world demo_world 401 (BText "Unauthenticated.")).
  vm_compute. reflexivity.
Defined.

(** A chat request whose [data] has no [messages] passes the opening
    checks and then throws a [TypeError] while the argument of the
    completion call is built: the provider is not called and nothing
    is written or sent. *)
Theorem chat_without_history_throws (env : Env) (body : ChatBody)
    (userId groupId : string) (data : ChatData) (w : World) :
  truthy (chat_userId body) = Some userId →
  truthy (chat_groupId body) = Some groupId →
  chat_data body = Some data →
  is_Some (users w !! userId) →
  d_messages data = None →
  post_chat env body w = (Throw TypeError, w).
Proof.
  intros Hu Hg Hd [u Hw] Hh.
  unfold post_chat, post_chat_request, users_slot, spread. rewrite Hu, Hg, Hd.
  run. by rewrite Hw, Hh.
Qed.

Lemma chat_without_history_throws_demo :
  post_chat demo_env
    {| chat_userId := Some "alice"; chat_groupId := Some "g1";
       chat_data := Some {| d_messages := None;
                            d_query := Some (text_of_string "help") |} |}
    demo_world
  = (Throw TypeError, demo_world).
Proof.
  apply (chat_without_history_throws demo_env _ "alice" "g1"
           {| d_messages := None; d_query := Some (text_of_string "help") |}).
  - reflexivity.
  - reflexivity.
  - reflexivity.
  - vm_compute. eauto.
  - reflexivity.
Defined.

(** ** From creating or joining a group to using it *)

Lemma truthy_Some x s : truthy x = Some s → x = Some s ∧ truthy (Some s) = Some s.
Proof.
  destruct x as [t|]; simpl; [|done].
  destruct (decide (t = "")) as [|Hne]; [done|].
  intros H. inversion H; subst. simpl. by rewrite decide_False.
Qed.

Lemma post_groups_success_inv env body w w1 userId groupId groupName :
  post_groups env body w
  = (Ok (Sent 200 (BCreated userId groupId groupName)), w1) →
  truthy (create_userId body) = Some userId
  ∧ groupId = uuidv4 env
  ∧ is_Some (getUser env userId)
  ∧ s_groups (firestore w1) !! groupId
    = Some {| g_id := groupId; g_userId := userId; g_name := groupName;
              g_messages := []; g_members := [userId] |}
  ∧ ∃ d, s_users (firestore w1) !! userId = Some d
         ∧ {| ref_id := groupId; ref_name := groupName |} ∈ u_groups d.
Proof.
  unfold post_groups.
  destruct (truthy (create_userId body)) as [u|] eqn:Hu; [|by inversion 1].
  destruct (truthy (create_groupName body)) as [n|] eqn:Hn; [|by inversion 1].
  unfold clerk_getUser, runTransaction. run.
  destruct (getUser env u) as [user|] eqn:Huser; simpl; [|by inversion 1].
  destruct (commit_rejects env _); [by inversion 1|].
  rewrite commit_create. simpl. intros H. inversion H; subst. clear H. simpl.
  split; [done|]. split; [done|]. split; [eauto|].
  split; [apply lookup_insert_eq|].
  eexists. split; [apply lookup_insert_eq|].
  destruct (s_users (firestore w) !! userId) as [d0|]; simpl.
  - apply arrayUnion_elem.
  - by apply list_elem_of_singleton.
Qed.

(** A group that [POST /groups] has created is open to its creator at
    once: the socket endpoint accepts the creator and caches the
    one-member list, and [GET /messages] answers with the new document,
    whose history is empty. *)
Theorem created_group_admits_creator (env : Env) (body : CreateBody)
    (w w1 : World) (userId groupId groupName : string) :
  post_groups env body w
  = (Ok (Sent 200 (BCreated userId groupId groupName)), w1) →
  groupId ≠ "" →
  getDoc_rejects env "groups" groupId = false →
  (∀ socket, ∃ w2,
     message_route env socket (Some userId) (Some groupId) w1
     = (Ok (Listening userId groupId), w2)
     ∧ groups w2 !! groupId = Some {| members := [userId] |})
  ∧ ∃ w2,
      get_messages env (Some userId) (Some groupId) w1
      = (Ok (Sent 200
               (BGroup {| g_id := groupId; g_userId := userId;
                          g_name := groupName; g_messages := [];
                          g_members := [userId] |})), w2).
Proof.
  intros H Hne Hrej.
  apply post_groups_success_inv in H as (Hu & _ & [user Huser] & Hdoc & _).
  apply truthy_Some in Hu as [_ Hu].
  assert (Hg : truthy (Some groupId) = Some groupId)
    by (simpl; by rewrite decide_False).
  assert (Hin : userId ∈ [userId]) by apply list_elem_of_here.
  split.
  - intros socket.
    destruct (accepted_connection env socket (Some userId) (Some groupId)
                userId groupId user _ w1 Hu Hg Huser Hrej Hdoc Hin)
      as (w2 & Hr & _ & Hgroups & _).
    eauto.
  - unfold get_messages. rewrite Hu, Hg.
    unfold clerk_getUser, getDoc_group. run.
    rewrite Huser. simpl. rewrite (readable _ _ _ Hrej). simpl. rewrite Hdoc. simpl.
    rewrite (bool_decide_eq_true_2 (userId = userId)) by done. simpl. eauto.
Qed.

Lemma created_group_admits_creator_demo :
  (∀ socket, ∃ w2,
     message_route demo_env socket (Some "alice") (Some "3f2c")
       (post_groups demo_env
          {| create_userId := Some "alice"; create_groupName := Some "chess" |}
          demo_world).2
     = (Ok (Listening "alice" "3f2c"), w2)
     ∧ groups w2 !! "3f2c" = Some {| members := ["alice"] |})
  ∧ ∃ w2,
      get_messages demo_env (Some "alice") (Some "3f2c")
        (post_groups demo_env
           {| create_userId := Some "alice"; create_groupName := Some "chess" |}
           demo_world).2
      = (Ok (Sent 200
               (BGroup {| g_id := "3f2c"; g_userId := "alice";
                          g_name := "chess"; g_messages := [];
                          g_members := ["alice"] |})), w2).
Proof.
  apply (created_group_admits_creator demo_env
           {| create_userId := Some "alice"; create_groupName := Some "chess" |}
           demo_world).
  - vm_compute. reflexivity.
  - done.
  - reflexivity.
Defined.

(** After [POST /groups] has answered, [GET /groups] for the creator
    returns the creator's document, and its [groups] lists the new
    group under the name given. *)
Theorem created_group_is_listed (env : Env) (body : CreateBody)
    (w w1 : World) (userId groupId groupName : string) :
  post_groups env body w
  = (Ok (Sent 200 (BCreated userId groupId groupName)), w1) →
  getDoc_rejects env "users" userId = false →
  ∃ d w2,
    get_groups env (Some userId) w1 = (Ok (SentListing 200 (Profile d)), w2)
    ∧ {| ref_id := groupId; ref_name := groupName |} ∈ u_groups d.
Proof.
  intros H Hrej.
  apply post_groups_success_inv in H as (Hu & _ & [user Huser] & _ & d & Hd & Hin).
  apply truthy_Some in Hu as [_ Hu].
  exists d. unfold get_groups. rewrite Hu.
  unfold clerk_getUser, getDoc_user. run.
  rewrite Huser. simpl. rewrite (readable _ _ _ Hrej). simpl. rewrite Hd. eauto.
Qed.

Lemma created_group_is_listed_demo :
  ∃ d w2,
    get_groups demo_env (Some "alice")
      (post_groups demo_env
         {| create_userId := Some "alice"; create_groupName := Some "chess" |}
         demo_world).2
    = (Ok (SentListing 200 (Profile d)), w2)
    ∧ {| ref_id := "3f2c"; ref_name := "chess" |} ∈ u_groups d.
Proof.
  apply (created_group_is_listed demo_env
           {| create_userId := Some "alice"; create_groupName := Some "chess" |}
           demo_world).
  - vm_compute. reflexivity.
  - reflexivity.
Defined.

Lemma commit_join_full (userId groupId : string) (data g : GroupDoc) (s : Store) :
  s_groups s !! groupId = Some g →
  ∃ s' d,
    commit
      (ensure_user userId s ++
       [UpdateUserGroups userId
          {| ref_id := g_id data; ref_name := g_name data |};
        UpdateGroupMembers groupId userId]) s = Some s'
    ∧ s_groups s' !! groupId
      = Some (with_members g (arrayUnion (g_members g) userId))
    ∧ s_users s' !! userId = Some d
    ∧ {| ref_id := g_id data; ref_name := g_name data |} ∈ u_groups d.
Proof.
  intros Hg. unfold ensure_user.
  destruct (s_users s !! userId) as [u|] eqn:Hu; simpl.
  - rewrite Hu. simpl. rewrite Hg. eexists _, _. split; [reflexivity|].
    simpl. split; [apply lookup_insert_eq|].
    split; [apply lookup_insert_eq|]. simpl. apply arrayUnion_elem.
  - rewrite lookup_insert_eq. simpl. rewrite Hg. eexists _, _.
    split; [reflexivity|]. simpl. split; [apply lookup_insert_eq|].
    split; [apply lookup_insert_eq|]. simpl. apply arrayUnion_elem.
Qed.

Lemma patch_groups_success_inv env body w w1 data :
  patch_groups env body w = (Ok (Sent 200 (BGroup data)), w1) →
  ∃ userId groupId d,
    truthy (join_userId body) = Some userId
    ∧ truthy (join_groupId body) = Some groupId
    ∧ is_Some (getUser env userId)
    ∧ getDoc_rejects env "groups" groupId = false
    ∧ s_groups (firestore w) !! groupId = Some data
    ∧ s_groups (firestore w1) !! groupId
      = Some (with_members data (arrayUnion (g_members data) userId))
    ∧ s_users (firestore w1) !! userId = Some d
    ∧ {| ref_id := g_id data; ref_name := g_name data |} ∈ u_groups d.
Proof.
  unfold patch_groups.
  destruct (truthy (join_userId body)) as [userId|] eqn:Hu; [|by inversion 1].
  destruct (truthy (join_groupId body)) as [groupId|] eqn:Hg; [|by inversion 1].
  unfold clerk_getUser, getDoc_group, runTransaction. run.
  destruct (getUser env userId) as [user|] eqn:Huser; simpl; [|by inversion 1].
  destruct (reference env "groups" groupId) eqn:Href; simpl;
    [by inversion 1|by inversion 1|].
    assert (Hrej : getDoc_rejects env "groups" groupId = false)
      by (unfold getDoc_rejects; by rewrite Href).
  destruct (s_groups (firestore w) !! groupId) as [data0|] eqn:Hd; simpl;
    [|by inversion 1].
  destruct (commit_rejects env _); [by inversion 1|].
  destruct (commit_join_full userId groupId data0 data0 (firestore w) Hd)
    as (s' & d & Hs' & Hgroup & Huserdoc & Hin).
  rewrite Hs'. simpl. intros H. inversion H; subst. clear H. simpl.
  exists userId, groupId, d. split_and!; eauto.
Qed.

(** A user whom [PATCH /groups] has added is admitted from then on: a
    connection with the same two ids is accepted, and the member list
    it caches for the group contains the user. *)
Theorem joined_user_is_admitted (env : Env) (body : JoinBody) (w w1 : World)
    (data : GroupDoc) :
  patch_groups env body w = (Ok (Sent 200 (BGroup data)), w1) →
  ∀ socket, ∃ userId groupId ms w2,
    message_route env socket (join_userId body) (join_groupId body) w1
    = (Ok (Listening userId groupId), w2)
    ∧ groups w2 !! groupId = Some {| members := ms |}
    ∧ userId ∈ ms.
Proof.
  intros H socket.
  apply patch_groups_success_inv in H
    as (userId & groupId & d & Hu & Hg & [user Huser] & Hrej & _ & Hdoc & _).
  assert (Hin : userId ∈ arrayUnion (g_members data) userId)
    by apply arrayUnion_elem.
  destruct (accepted_connection env socket _ _ userId groupId user _ w1
              Hu Hg Huser Hrej Hdoc Hin) as (w2 & Hr & _ & Hgroups & _).
  exists userId, groupId, (arrayUnion (g_members data) userId), w2.
  split; [done|]. split; [done|]. done.
Qed.

Lemma joined_user_is_admitted_demo :
  ∃ userId groupId ms w2,
    message_route demo_env 5 (Some "dave") (Some "g1")
      (patch_groups demo_env
         {| join_userId := Some "dave"; join_groupId := Some "g1" |}
         demo_world).2
    = (Ok (Listening userId groupId), w2)
    ∧ groups w2 !! groupId = Some {| members := ms |}
    ∧ userId ∈ ms.
Proof.
  apply (joined_user_is_admitted demo_env
           {| join_userId := Some "dave"; join_groupId := Some "g1" |}
           demo_world _ g1_doc).
  vm_compute. reflexivity.
Defined.

Lemma arrayUnion_old {A} `{EqDecision A} (l : list A) (x : A) :
  x ∈ l → arrayUnion l x = l.
Proof. intros Hx. unfold arrayUnion. by destruct (decide (x ∈ l)). Qed.

(** Joining a group a second time changes no document: the member list
    and the user's index already hold the entries, and [arrayUnion]
    adds nothing.  The second answer is the document as the first join
    left it, so this time it does list the user. *)
Theorem joining_twice_changes_nothing (env : Env) (body : JoinBody)
    (w w1 : World) (data : GroupDoc) :
  patch_groups env body w = (Ok (Sent 200 (BGroup data)), w1) →
  (∀ ws, commit_rejects env ws = false) →
  ∃ userId data' w2,
    truthy (join_userId body) = Some userId
    ∧ patch_groups env body w1 = (Ok (Sent 200 (BGroup data')), w2)
    ∧ firestore w2 = firestore w1
    ∧ userId ∈ g_members data'.
Proof.
  intros H Hcommit.
  apply patch_groups_success_inv in H
    as (userId & groupId & d & Hu & Hg & [user Huser] & Hrej & _ & Hdoc & Hd & Hin).
  exists userId. eexists _, _. split; [done|].
  unfold patch_groups. rewrite Hu, Hg.
  unfold clerk_getUser, getDoc_group, runTransaction. run.
  rewrite Huser. simpl. rewrite (readable _ _ _ Hrej). simpl. rewrite Hdoc. simpl.
  rewrite Hcommit. unfold ensure_user. rewrite Hd. simpl. rewrite Hd. simpl.
  rewrite Hdoc. simpl. split; [reflexivity|]. simpl.
  split; [|apply arrayUnion_elem].
  rewrite (arrayUnion_old (u_groups d)) by done.
  rewrite (arrayUnion_old (arrayUnion _ _)) by apply arrayUnion_elem.
  unfold put_group, put_user. simpl.
  destruct (firestore w1) as [sg su]. simpl in *. f_equal.
  - apply insert_id. rewrite Hdoc. by destruct data.
  - apply insert_id. rewrite Hd. by destruct d.
Qed.

Lemma joining_twice_changes_nothing_demo :
  ∃ userId data' w2,
    truthy (Some "dave") = Some userId
    ∧ patch_groups demo_env
        {| join_userId := Some "dave"; join_groupId := Some "g1" |}
        (patch_groups demo_env
           {| join_userId := Some "dave"; join_groupId := Some "g1" |}
           demo_world).2
      = (Ok (Sent 200 (BGroup data')), w2)
    ∧ firestore w2
      = firestore
          (patch_groups demo_env
             {| join_userId := Some "dave"; join_groupId := Some "g1" |}
             demo_world).2
    ∧ userId ∈ g_members data'.
Proof.
  apply (joining_twice_changes_nothing demo_env
           {| join_userId := Some "dave"; join_groupId := Some "g1" |}
           demo_world _ g1_doc).
  - vm_compute. reflexivity.
  - reflexivity.
Defined.

(** ** An accepted connection *)

(** When the connection handler accepts a socket, [groups[groupId]]
    becomes the member list of the stored document, replacing what was
    cached, the socket and no other is tagged with the two ids, and
    from then on the socket, while open, is eligible for the group's
    broadcasts. *)
Theorem accepted_socket_is_served (env : Env) (socket : nat)
    (q_userId q_groupId : option string) (userId groupId : string)
    (w w' : World) :
  message_route env socket q_userId q_groupId w
  = (Ok (Listening userId groupId), w') →
  (∃ d, s_groups (firestore w) !! groupId = Some d
        ∧ groups w' !! groupId = Some {| members := g_members d |})
  ∧ clients w'
    = map (λ c, if decide (handle c = socket)
                then {| handle := handle c; readyState := readyState c;
                        sock_id := Some userId; sock_groupId := Some groupId |}
                else c) (clients w)
  ∧ ∀ c, c ∈ clients w' → handle c = socket → readyState c = 1 →
         receives (groups w') groupId c.
Proof.
  unfold message_route.
  destruct (truthy q_userId) as [u|] eqn:Hu; [|by inversion 1].
  destruct (truthy q_groupId) as [g|] eqn:Hg; [|by inversion 1].
  unfold doc, doc_throws, clerk_getUser, getDoc_group, set_sock_id,
    set_sock_groupId, close. run.
  destruct (reference env "groups" g); simpl; [by inversion 1| |];
    (destruct (getUser env u) as [user|]; simpl; [|by inversion 1]);
    [by inversion 1|].
  destruct (s_groups (firestore w) !! g) as [d|] eqn:Hd; simpl;
    [|by inversion 1].
  rewrite some_strict_eq. case_bool_decide as Hin; simpl; [|by inversion 1].
  intros H. inversion H; subst. clear H. simpl.
  assert (Hmap :
    map (λ c, if decide (handle c = socket)
              then {| handle := handle c; readyState := readyState c;
                      sock_id := sock_id c; sock_groupId := Some groupId |}
              else c)
      (map (λ c, if decide (handle c = socket)
                 then {| handle := handle c; readyState := readyState c;
                         sock_id := Some userId; sock_groupId := sock_groupId c |}
                 else c) (clients w))
    = map (λ c, if decide (handle c = socket)
                then {| handle := handle c; readyState := readyState c;
                        sock_id := Some userId; sock_groupId := Some groupId |}
                else c) (clients w)).
  { rewrite map_map. apply map_ext. intros c.
    destruct (decide (handle c = socket)) as [Hh|Hh]; simpl.
    - by rewrite decide_True.
    - by rewrite decide_False. }
  split; [exists d; split; [done | apply lookup_insert_eq]|].
  split; [exact Hmap|].
  rewrite Hmap. intros c Hc Hh Hopen.
  apply list_elem_of_fmap in Hc as (c0 & -> & Hc0).
  destruct (decide (handle c0 = socket)) as [Hh0|Hh0]; simpl in *; [|done].
  apply (receives_intro _ _ _ {| members := g_members d |} userId);
    [done | done | apply lookup_insert_eq | done | done].
Qed.

Lemma accepted_socket_is_served_demo :
  receives
    (groups (message_route demo_env 5 (Some "alice") (Some "g1") demo_world).2)
    "g1" (sock 5 1 (Some "alice") (Some "g1")).
Proof.
  apply (accepted_socket_is_served demo_env 5 (Some "alice") (Some "g1")
           "alice" "g1" demo_world).
  - vm_compute. reflexivity.
  - vm_compute. listed.
  - reflexivity.
  - reflexivity.
Defined.

(** ** The history holds what was sent *)

(** When the [message] listener returns normally for a frame that is
    not blank, the message is in the stored document of the group:
    whoever [GET /messages] then answers for that group gets a history
    that contains it. *)
Theorem sent_message_is_in_history (env : Env) (socket : nat)
    (userId groupId : string) (data : text) (w w' : World)
    (u : ConnectedUser) :
  users w !! userId = Some u →
  ¬ Forall blank data →
  on_message env socket userId groupId data w = (Ok tt, w') →
  (∃ g, s_groups (firestore w') !! groupId = Some g
        ∧ UserMessage userId (name u) (trim data) (now env) ∈ g_messages g)
  ∧ ∀ env' q_userId d w2,
      get_messages env' q_userId (Some groupId) w' = (Ok (Sent 200 (BGroup d)), w2) →
      UserMessage userId (name u) (trim data) (now env) ∈ g_messages d.
Proof.
  intros Hu Hnb H.
  assert (Ht : trim data ≠ []) by (intros Ht; by apply Hnb, trim_nil_inv).
  assert (Hstore : ∃ g, s_groups (firestore w') !! groupId = Some g
            ∧ UserMessage userId (name u) (trim data) (now env) ∈ g_messages g).
  { revert H. unfold on_message, users_name, updateDoc_messages. run.
    rewrite Hu. destruct (trim data) as [|c s] eqn:Hd; [done|].
    rewrite Hu. simpl.
    destruct (updateDoc_rejects env groupId _); [by inversion 1|].
    destruct (s_groups (firestore w) !! groupId) as [g|]; [|by inversion 1].
    simpl. intros H.
    apply (preserves_broadcast same_store) in H;
      [|done|apply same_store_trans|done].
    unfold same_store in H. rewrite H. simpl.
    eexists. split; [apply lookup_insert_eq|]. simpl. apply arrayUnion_elem. }
  split; [done|].
  intros env' q_userId d w2 Hget.
  assert (Hadm : admitted env' w' q_userId (Some groupId))
    by (apply get_messages_admits; eauto).
  destruct Hadm as (reader & G & d' & _ & HG & _ & _ & Hd' & _).
  apply truthy_Some in HG as [HG _]. inversion HG; subst G.
  destruct Hstore as (g & Hg & Hin).
  assert (d' = g) by congruence. subst d'.
  revert Hget. unfold get_messages.
  destruct (truthy q_userId) as [r0|]; [|by inversion 1].
  destruct (truthy (Some groupId)) as [g0|] eqn:Hg0; [|by inversion 1].
  apply truthy_Some in Hg0 as [Hg0 _]. inversion Hg0; subst g0.
  unfold clerk_getUser, getDoc_group. run.
  destruct (getUser env' r0); simpl; [|by inversion 1].
  destruct (reference env' "groups" groupId); simpl; [by inversion 1|by inversion 1|].
  rewrite Hg. simpl. destruct (negb _); [by inversion 1|].
  intros Hr. by inversion Hr; subst.
Qed.

Lemma sent_message_is_in_history_demo :
  (∃ g, s_groups (firestore (on_message demo_env 1 "alice" "g1"
                               (text_of_string " hello ") demo_world).2) !! "g1"
        = Some g
        ∧ UserMessage "alice" (text_of_string "Alice A")
            (trim (text_of_string " hello ")) (now demo_env) ∈ g_messages g)
  ∧ ∀ env' q_userId d w2,
      get_messages env' q_userId (Some "g1")
        (on_message demo_env 1 "alice" "g1" (text_of_string " hello ")
           demo_world).2
      = (Ok (Sent 200 (BGroup d)), w2) →
      UserMessage "alice" (text_of_string "Alice A")
        (trim (text_of_string " hello ")) (now demo_env) ∈ g_messages d.
Proof.
  apply (sent_message_is_in_history demo_env 1 "alice" "g1"
           (text_of_string " hello ") demo_world _
           {| name := text_of_string "Alice A" |}).
  - by vm_compute.
  - intros H. apply trim_blank in H. by vm_compute in H.
  - vm_compute. reflexivity.
Defined.

(** ** A user the identity provider does not know *)

(** The four HTTP routes that ask the identity provider do so before
    they read or write the store: for a user it does not resolve, each
    of them throws the provider's error after that one call, where the
    socket endpoint would close with 4001.  No document is read, no
    transaction is run and nothing is answered. *)
Theorem unknown_user_stops_every_route (env : Env) (userId : string)
    (w : World) :
  getUser env userId = None →
  (∀ q_userId q_groupId groupId,
     truthy q_userId = Some userId → truthy q_groupId = Some groupId →
     get_messages env q_userId q_groupId w
     = (Throw ClerkError, append_trace [EvGetUser userId] w))
  ∧ (∀ q_userId,
       truthy q_userId = Some userId →
       get_groups env q_userId w
       = (Throw ClerkError, append_trace [EvGetUser userId] w))
  ∧ (∀ body groupName,
       truthy (create_userId body) = Some userId →
       truthy (create_groupName body) = Some groupName →
       post_groups env body w
       = (Throw ClerkError, append_trace [EvGetUser userId] w))
  ∧ (∀ body groupId,
       truthy (join_userId body) = Some userId →
       truthy (join_groupId body) = Some groupId →
       patch_groups env body w
       = (Throw ClerkError, append_trace [EvGetUser userId] w)).
Proof.
  intros Hnone. split_and!.
  - intros qu qg g Hu Hg. unfold get_messages, clerk_getUser. rewrite Hu, Hg.
    run. by rewrite Hnone.
  - intros qu Hu. unfold get_groups, clerk_getUser. rewrite Hu.
    run. by rewrite Hnone.
  - intros body n Hu Hn. unfold post_groups, clerk_getUser. rewrite Hu, Hn.
    run. by rewrite Hnone.
  - intros body g Hu Hg. unfold patch_groups, clerk_getUser. rewrite Hu, Hg.
    run. by rewrite Hnone.
Qed.

Lemma unknown_user_stops_every_route_demo :
  get_messages demo_env (Some "mallory") (Some "g1") demo_world
  = (Throw ClerkError, append_trace [EvGetUser "mallory"] demo_world).
Proof.
  apply (proj1 (unknown_user_stops_every_route demo_env "mallory" demo_world
                  eq_refl) (Some "mallory") (Some "g1") "g1");
    reflexivity.
Defined.

(** ** [POST /chat] when the provider answers *)

(** When the [await] of [POST /chat] resumes with a completion, in
    whatever state the process is by then, the handler sends no reply,
    and what it does depends on [users[userId]] as it is now.  If it is
    [undefined], the user's socket having closed in the meantime, the
    handler throws a [TypeError] and nothing is appended or sent.
    Otherwise, if [doc] throws for the group id, the handler throws
    and again nothing is appended or sent.  Otherwise there is exactly
    one [updateDoc], for the message that carries the query, the name
    found and the first choice's content, or the empty text when the
    completion has no such content; after it nothing leaves the process
    but sends of that message to eligible clients of the group, in
    iteration order. *)
Theorem resumed_chat_trace (env : Env) (pending : ChatPending)
    (completion : Completion) (w w' : World) (r : Res Reply) :
  pending_outcome pending = Resolved completion →
  post_chat_resume env pending w = (r, w') →
  (r = Ok NotSent ∨ ∃ e, r = Throw e)
  ∧ match users_slot (users w) (pending_userId pending) with
    | Vacant => r = Throw TypeError ∧ w' = w
    | Held name =>
        if doc_throws env "groups" (pending_groupId pending)
        then r = Throw FirestoreError ∧ w' = w
        else
          ∃ sends,
            trace w'
            = trace w
              ++ EvUpdateDoc (pending_groupId pending)
                   (ai_message (pending_userId pending) name
                      (d_query (pending_data pending))
                      (first_content completion) (now env))
              :: sends
            ∧ sends `prefix_of`
                deliveries
                  (JSON_stringify
                     (ai_message (pending_userId pending) name
                        (d_query (pending_data pending))
                        (first_content completion) (now env)))
                  (pending_groupId pending) (groups w) (clients w)
    end.
Proof.
  intros Ho.
  unfold post_chat_resume, settled, users_slot_name, doc, updateDoc_messages.
  rewrite Ho. run.
  destruct (users_slot (users w) (pending_userId pending)) as [|name].
  { intros H. inversion H; subst. eauto. }
  simpl. destruct (doc_throws env "groups" (pending_groupId pending)).
  { intros H. inversion H; subst. eauto. }
  simpl. destruct (updateDoc_rejects env (pending_groupId pending) _).
  { intros H. inversion H; subst. split; [eauto|]. exists []. simpl.
    split; [done | apply prefix_nil]. }
  destruct (s_groups (firestore w) !! pending_groupId pending) as [g|].
  2:{ intros H. inversion H; subst. split; [eauto|]. exists []. simpl.
      split; [done | apply prefix_nil]. }
  simpl.
  match goal with
  | |- context [broadcast env ?G ?p ?w0] =>
      destruct (broadcast env G p w0) as [[[]|e] w1] eqn:Hb
  end;
    unfold broadcast in Hb; run; apply forEach_prefix in Hb as (evs & -> & Hpre & _);
    intros H; inversion H; subst; (split; [eauto|]); exists evs; simpl;
    (split; [by rewrite <- !app_assoc | done]).
Qed.

Lemma resumed_chat_trace_demo :
  (post_chat_resume demo_env
     {| pending_userId := "alice"; pending_groupId := "g1";
        pending_data := {| d_messages := Some []; d_query := None |};
        pending_outcome := Resolved {| choices := [] |} |}
     (on_close "alice" "g1" demo_world).2).1 = Ok NotSent
  ∨ ∃ e, (post_chat_resume demo_env
            {| pending_userId := "alice"; pending_groupId := "g1";
               pending_data := {| d_messages := Some []; d_query := None |};
               pending_outcome := Resolved {| choices := [] |} |}
            (on_close "alice" "g1" demo_world).2).1 = Throw e.
Proof.
  apply (proj1 (resumed_chat_trace demo_env
           {| pending_userId := "alice"; pending_groupId := "g1";
              pending_data := {| d_messages := Some []; d_query := None |};
              pending_outcome := Resolved {| choices := [] |} |}
           {| choices := [] |}
           (on_close "alice" "g1" demo_world).2 _ _ eq_refl
           (surjective_pairing _))).
Defined.

(** A user whose socket closes while the completion is awaited: the
    request passed the 401 check, the provider answered, and the
    handler ends in a [TypeError] with nothing appended or sent. *)
Lemma close_during_the_await :
  post_chat_resume demo_env
    {| pending_userId := "alice"; pending_groupId := "g1";
       pending_data := {| d_messages := Some []; d_query := None |};
       pending_outcome := Resolved {| choices := [] |} |}
    (on_close "alice" "g1" demo_world).2
  = (Throw TypeError, (on_close "alice" "g1" demo_world).2).
Proof. vm_compute. reflexivity. Qed.

(** ** Ids that are not what they should be *)

(** A connection attempt whose [groupId] is not the id of a document
    ends in the error [doc] throws, before the [try]: the identity
    provider is not asked, nothing is read, the socket is not closed by
    the handler and no state is written. *)
Theorem malformed_group_id_throws_before_try (env : Env) (socket : nat)
    (q_userId q_groupId : option string) (userId groupId : string)
    (w : World) :
  truthy q_userId = Some userId →
  truthy q_groupId = Some groupId →
  doc_throws env "groups" groupId = true →
  message_route env socket q_userId q_groupId w = (Throw FirestoreError, w).
Proof.
  intros Hu Hg Hdoc. unfold message_route, doc. rewrite Hu, Hg. run.
  by rewrite Hdoc.
Qed.

Lemma malformed_group_id_throws_before_try_demo :
  message_route env_malformed 5 (Some "alice") (Some "g1/x") demo_world
  = (Throw FirestoreError, demo_world).
Proof.
  apply (malformed_group_id_throws_before_try env_malformed 5
           (Some "alice") (Some "g1/x") "alice" "g1/x" demo_world);
    reflexivity.
Defined.

(** The 401 check of [POST /chat] looks [userId] up on a plain object:
    an id that names a property of [Object.prototype] passes it even
    when [users] is empty, and the completion request is made. *)
Theorem inherited_id_reaches_the_provider (env : Env) (body : ChatBody)
    (userId groupId : string) (data : ChatData) (history : list HistoryItem)
    (w : World) :
  truthy (chat_userId body) = Some userId →
  truthy (chat_groupId body) = Some groupId →
  chat_data body = Some data →
  is_Some (prototype_name userId) →
  d_messages data = Some history →
  ∃ transcript,
    post_chat_request env body w
    = (Ok (inr {| pending_userId := userId; pending_groupId := groupId;
                  pending_data := data;
                  pending_outcome := create env transcript |}),
       append_trace [EvCompletion transcript] w).
Proof.
  intros Hu Hg Hd [n Hn] Hh.
  unfold post_chat_request, users_slot, spread, completions_create.
  rewrite Hu, Hg, Hd. run. rewrite Hn, Hh.
  destruct (users w !! userId); simpl; eauto.
Qed.

Lemma inherited_id_reaches_the_provider_demo :
  ∃ transcript,
    post_chat_request demo_env
      {| chat_userId := Some "toString"; chat_groupId := Some "g1";
         chat_data := Some {| d_messages := Some []; d_query := None |} |}
      (startup (firestore demo_world))
    = (Ok (inr {| pending_userId := "toString"; pending_groupId := "g1";
                  pending_data := {| d_messages := Some []; d_query := None |};
                  pending_outcome := create demo_env transcript |}),
       append_trace [EvCompletion transcript] (startup (firestore demo_world))).
Proof.
  apply (inherited_id_reaches_the_provider demo_env
           {| chat_userId := Some "toString"; chat_groupId := Some "g1";
              chat_data := Some {| d_messages := Some []; d_query := None |} |}
           "toString" "g1" {| d_messages := Some []; d_query := None |} []).
  - reflexivity.
  - reflexivity.
  - reflexivity.
  - vm_compute. eauto.
  - reflexivity.
Defined.
